(** * Minesweeper knowledge base (CS50AI, 1_Knowledge/minesweeper/minesweeper.py)

    A shallow embedding of the classes [Minesweeper], [Sentence] and
    [MinesweeperAI] and the properties of the inference engine.

    Modelling choices.
    - A cell is a pair of Python integers, [Z * Z]; a Python [set] of cells is
      a [gset Cell].  Python leaves the iteration order of a set unspecified;
      [for x in s] is a left fold over [elements s].
    - [Sentence] objects are mutable and shared: [self.knowledge] is a list of
      references, and [reason_about_new_knowledge] keeps a reference
      [new_knowledge] to an object that the loop may already have popped from
      the list.  The objects live in [store], a list indexed by object
      identity; [knowledge] is a list of references into it.
    - A method of [MinesweeperAI] maps an execution to an execution: the
      current state of the object together with the states it went through.
      A state is recorded after every update of one object: one set insertion,
      one call of a [Sentence] method, one list operation, or the two
      assignments that subtract one sentence from another.
    - The [while] loop, the [for] loop over the (shrinking) list and the
      recursion of [reason_about_new_knowledge] are bounded by a [fuel]
      argument; [None] means that the fuel ran out, nothing else.
    - The random draws of [Minesweeper.__init__] are an argument of its
      model.
    - Whether [make_random_move] depends on the order in which a set is
      iterated is settled on hash tables whose order depends on their
      history ([HashTable]), not on [gset]. *)

From stdpp Require Import gmap list.
From Stdlib Require Import ZArith Lia.

Local Open Scope Z_scope.
Set Warnings "-clear-no-such-hyp".

Abbreviation Cell := (Z * Z)%type.

(** [range(lo, hi)] *)
Definition range (lo hi : Z) : list Z := seqZ lo (hi - lo).

(** ** class Minesweeper: the board that answers the player's probes *)
Module Minesweeper.

Record t := Build {
  height : Z;
  width : Z;
  board : list (list bool)
}.

(** [self.board[i][j]], for indices within the board *)
Definition board_at (g : t) (i j : Z) : bool :=
  default false (row ← board g !! Z.to_nat i; row !! Z.to_nat j).

Definition in_bounds (g : t) (i j : Z) : bool :=
  (0 <=? i) && (i <? height g) && (0 <=? j) && (j <? width g).

Definition is_mine (g : t) (cell : Cell) : bool :=
  let '(i, j) := cell in board_at g i j.

Definition nearby_mines (g : t) (cell : Cell) : Z :=
  foldl (λ count i,
    foldl (λ count j,
      if decide ((i, j) = cell) then count
      else if in_bounds g i j
           then if board_at g i j then count + 1 else count
           else count)
      count (range (cell.2 - 1) (cell.2 + 2)))
    0 (range (cell.1 - 1) (cell.1 + 2)).

End Minesweeper.

(** ** class Sentence *)
Module Sentence.

Record t := Build {
  cells : gset Cell;
  count : Z
}.

(** [len(self.cells)] *)
Definition len (s : t) : Z := Z.of_nat (size (cells s)).

Definition known_mines (s : t) : gset Cell :=
  if decide (count s = len s) then cells s else ∅.

Definition known_safes (s : t) : gset Cell :=
  if decide (count s = 0) then cells s else ∅.

Definition mark_mine (cell : Cell) (s : t) : t :=
  if decide (cell ∈ cells s)
  then {| cells := cells s ∖ {[cell]}; count := count s - 1 |}
  else s.

Definition mark_safe (cell : Cell) (s : t) : t :=
  if decide (cell ∈ cells s)
  then {| cells := cells s ∖ {[cell]}; count := count s |}
  else s.

End Sentence.

(** ** class MinesweeperAI *)

Record MinesweeperAI := BuildAI {
  height : Z;
  width : Z;
  moves_made : gset Cell;
  all_moves : gset Cell;
  mines : gset Cell;
  safes : gset Cell;
  knowledge : list nat;
  store : list Sentence.t
}.

(** The object behind a reference.  Every reference the code holds is live;
    the default only makes the function total. *)
Definition deref (ai : MinesweeperAI) (ref : nat) : Sentence.t :=
  default (Sentence.Build ∅ 0) (store ai !! ref).

Definition set_moves_made (f : gset Cell → gset Cell) (ai : MinesweeperAI) :=
  BuildAI (height ai) (width ai) (f (moves_made ai)) (all_moves ai)
          (mines ai) (safes ai) (knowledge ai) (store ai).
Definition set_mines (f : gset Cell → gset Cell) (ai : MinesweeperAI) :=
  BuildAI (height ai) (width ai) (moves_made ai) (all_moves ai)
          (f (mines ai)) (safes ai) (knowledge ai) (store ai).
Definition set_safes (f : gset Cell → gset Cell) (ai : MinesweeperAI) :=
  BuildAI (height ai) (width ai) (moves_made ai) (all_moves ai)
          (mines ai) (f (safes ai)) (knowledge ai) (store ai).
Definition set_knowledge (f : list nat → list nat) (ai : MinesweeperAI) :=
  BuildAI (height ai) (width ai) (moves_made ai) (all_moves ai)
          (mines ai) (safes ai) (f (knowledge ai)) (store ai).
Definition set_store (f : list Sentence.t → list Sentence.t) (ai : MinesweeperAI) :=
  BuildAI (height ai) (width ai) (moves_made ai) (all_moves ai)
          (mines ai) (safes ai) (knowledge ai) (f (store ai)).

(** Mutation of the object behind [ref]. *)
Definition on_sentence (ref : nat) (f : Sentence.t → Sentence.t) : MinesweeperAI → MinesweeperAI :=
  set_store (alter f ref).

(** An execution: the current state and the states before it, latest first. *)
Record Exec := BuildExec {
  now : MinesweeperAI;
  past : list MinesweeperAI
}.

Definition start (ai : MinesweeperAI) : Exec := BuildExec ai [].

Definition states (e : Exec) : list MinesweeperAI := now e :: past e.

Definition update (f : MinesweeperAI → MinesweeperAI) (e : Exec) : Exec :=
  BuildExec (f (now e)) (now e :: past e).

Definition calculate_all_moves (height width : Z) : gset Cell :=
  foldl (λ all_moves i,
    foldl (λ all_moves j, {[(i, j)]} ∪ all_moves) all_moves (range 0 width))
    ∅ (range 0 height).

Definition init (height width : Z) : MinesweeperAI :=
  BuildAI height width ∅ (calculate_all_moves height width) ∅ ∅ [] [].

Definition mark_mine (cell : Cell) (e : Exec) : Exec :=
  let e := update (set_mines (λ m, {[cell]} ∪ m)) e in
  foldl (λ e sentence, update (on_sentence sentence (Sentence.mark_mine cell)) e)
        e (knowledge (now e)).

Definition mark_safe (cell : Cell) (e : Exec) : Exec :=
  let e := update (set_safes (λ s, {[cell]} ∪ s)) e in
  foldl (λ e sentence, update (on_sentence sentence (Sentence.mark_safe cell)) e)
        e (knowledge (now e)).

Definition get_unknown_neighbours (cell : Cell) (ai : MinesweeperAI) : gset Cell :=
  let '(row, col) := cell in
  foldl (λ neighbours i,
    if (i <? 0) || (i >=? height ai) then neighbours
    else
      foldl (λ neighbours j,
        if (j <? 0) || (j >=? width ai) then neighbours
        else if decide ((i, j) ∉ safes ai) then {[(i, j)]} ∪ neighbours
             else neighbours)
        neighbours (range (col - 1) (col + 2)))
    ∅ (range (row - 1) (row + 2)).

Definition clean_up_empty_knowledge (e : Exec) : Exec :=
  let ai := now e in
  let sentences_to_clean :=
    (filter (λ p, Sentence.len (deref ai p.2) = 0)
            (zip (seq 0 (length (knowledge ai))) (knowledge ai))).*1 in
  foldl (λ e i, update (set_knowledge (delete i)) e) e (reverse sentences_to_clean).

(** One pass of the [while added_knowledge] loop; the boolean is the value of
    [added_knowledge] at the end of the pass. *)
Definition discharge_pass (e : Exec) : Exec * bool :=
  let e := clean_up_empty_knowledge e in
  let previous_safes_count := size (safes (now e)) in
  let previous_mines_count := size (mines (now e)) in
  let known :=
    foldl (λ (known : gset Cell * gset Cell) sentence,
             let (known_mines, known_safes) := known in
             (Sentence.known_mines (deref (now e) sentence) ∪ known_mines,
              Sentence.known_safes (deref (now e) sentence) ∪ known_safes))
          (∅, ∅) (knowledge (now e)) in
  let e := foldl (λ e mine, mark_mine mine e) e (elements known.1) in
  let e := foldl (λ e safe, mark_safe safe e) e (elements known.2) in
  let new_safes_count := size (safes (now e)) in
  let new_mines_count := size (mines (now e)) in
  (e, bool_decide (previous_safes_count ≠ new_safes_count
                   ∨ previous_mines_count ≠ new_mines_count)).

Fixpoint discharge_loop (fuel : nat) (e : Exec) : option Exec :=
  match fuel with
  | O => None
  | S fuel =>
      let (e, added_knowledge) := discharge_pass e in
      if added_knowledge then discharge_loop fuel e else Some e
  end.

(** [existing.cells.difference_update(new.cells); existing.count -= new.count] *)
Definition subtract (new_knowledge : Sentence.t) (existing : Sentence.t) : Sentence.t :=
  {| Sentence.cells := Sentence.cells existing ∖ Sentence.cells new_knowledge;
     Sentence.count := Sentence.count existing - Sentence.count new_knowledge |}.

(** [for existing_knowledge in self.knowledge: ...], the list iterator being
    at index [i]: the list is read again at every step, so that elements
    removed meanwhile shift the remaining ones under the iterator. *)
Fixpoint resolve_loop (fuel : nat) (reason : nat → Exec → option Exec)
    (new_knowledge : nat) (i : nat) (e : Exec) : option Exec :=
  match fuel with
  | O => None
  | S fuel =>
      match knowledge (now e) !! i with
      | None => Some e
      | Some existing_knowledge =>
          if decide (Sentence.len (deref (now e) existing_knowledge) = 0)
          then resolve_loop fuel reason new_knowledge (S i) (clean_up_empty_knowledge e)
          else
            let new_cells := Sentence.cells (deref (now e) new_knowledge) in
            let existing_cells := Sentence.cells (deref (now e) existing_knowledge) in
            if decide (new_cells ⊆ existing_cells ∧ existing_cells ≠ new_cells)
            then
              let e := update (on_sentence existing_knowledge
                                 (subtract (deref (now e) new_knowledge))) e in
              e ← reason existing_knowledge e;
              resolve_loop fuel reason new_knowledge (S i) e
            else resolve_loop fuel reason new_knowledge (S i) e
      end
  end.

Fixpoint reason_about_new_knowledge (fuel : nat) (new_knowledge : nat) (e : Exec)
    : option Exec :=
  match fuel with
  | O => None
  | S fuel =>
      if decide (Sentence.len (deref (now e) new_knowledge) = 0) then Some e
      else
        e ← discharge_loop fuel e;
        resolve_loop fuel (reason_about_new_knowledge fuel) new_knowledge 0 e
  end.

Definition add_knowledge (fuel : nat) (cell : Cell) (count : Z) (e : Exec) : option Exec :=
  let e := update (set_moves_made (λ m, {[cell]} ∪ m)) e in
  let e := mark_safe cell e in
  let unknown_neighbours := get_unknown_neighbours cell (now e) in
  let new_knowledge := length (store (now e)) in
  let e := update (set_store (λ st, st ++ [Sentence.Build unknown_neighbours count])) e in
  let e := update (set_knowledge (λ k, k ++ [new_knowledge])) e in
  let mines_in_new_knowledge :=
    Sentence.cells (deref (now e) new_knowledge) ∩ mines (now e) in
  let e := foldl (λ e mine, mark_mine mine e) e (elements mines_in_new_knowledge) in
  reason_about_new_knowledge fuel new_knowledge e.

Definition make_safe_move (ai : MinesweeperAI) : option Cell :=
  head (filter (λ safe, safe ∉ moves_made ai) (elements (safes ai))).

Definition make_random_move (ai : MinesweeperAI) : option Cell :=
  let remaining_moves := all_moves ai ∖ moves_made ai in
  head (filter (λ move, move ∉ mines ai) (elements remaining_moves)).

Definition check_if_sentence_has_known_mines (sentence : Sentence.t)
    (ai : MinesweeperAI) : gset Cell :=
  mines ai ∩ Sentence.cells sentence.

(** The caller's loop: one [add_knowledge] per probed cell. *)
Fixpoint observe_all (fuel : nat) (observations : list (Cell * Z)) (e : Exec)
    : option Exec :=
  match observations with
  | [] => Some e
  | (cell, count) :: rest =>
      e ← add_knowledge fuel cell count e;
      observe_all fuel rest e
  end.

(** The listed sentences, as values. *)
Definition sentences (ai : MinesweeperAI) : list Sentence.t :=
  deref ai <$> knowledge ai.

(** ** The iteration order of a set

    CPython iterates a set in the order of its hash table.  That order
    depends on the keys and on the insertions and removals the set went
    through: two sets with the same members may be iterated in different
    orders.  [gset] has one order per set of members, so it cannot tell
    whether a result depends on the history of a set.  Where that is the
    question, a set is a table of a [HashTable]: hashing, probing and resizing
    are the implementation's, and only what every table does is asked of it
    ([lawful]). *)

Record HashTable := BuildHashTable {
  table : Type;
  (** [set()] *)
  t_empty : table;
  (** [s.add(key)] *)
  t_add : Cell → table → table;
  (** removal of a key, whose slot becomes a dummy *)
  t_discard : Cell → table → table;
  (** the copy that [s.copy()] makes *)
  t_copy : table → table;
  (** the resize that ends [difference_update] when dummies abound *)
  t_settle : table → table;
  (** the keys in the order of the table: [for key in s] *)
  t_iter : table → list Cell
}.

Record lawful (H : HashTable) : Prop := Lawful {
  law_NoDup : ∀ t : table H, NoDup (t_iter H t);
  law_empty : t_iter H (t_empty H) = [];
  law_add : ∀ c (t : table H) d, d ∈ t_iter H (t_add H c t) ↔ d = c ∨ d ∈ t_iter H t;
  law_discard : ∀ c (t : table H) d,
    d ∈ t_iter H (t_discard H c t) ↔ d ≠ c ∧ d ∈ t_iter H t;
  law_discard_comm : ∀ c d (t : table H),
    t_discard H c (t_discard H d t) = t_discard H d (t_discard H c t);
  law_copy : ∀ t : table H, t_iter H (t_copy H t) ≡ₚ t_iter H t;
  law_settle : ∀ t : table H, t_iter H (t_settle H t) ≡ₚ t_iter H t
}.

(** [len(s)] *)
Definition t_len (H : HashTable) (t : table H) : nat := length (t_iter H t).

(** [so.difference(other)] for two sets, as CPython's [set_difference] does
    it: when [len(so) >> 2 > len(other)], a copy of [so] from which the keys
    of [other] are discarded, in the order of [other]; otherwise a new set
    that receives, in the order of [so], the keys of [so] that [other] does
    not contain. *)
Definition difference_on (H : HashTable) (so other : table H) : table H :=
  if decide (t_len H other < t_len H so / 4)%nat
  then t_settle H (foldl (λ result key, t_discard H key result)
                         (t_copy H so) (t_iter H other))
  else foldl (λ result key, t_add H key result) (t_empty H)
             (filter (λ key, key ∉ t_iter H other) (t_iter H so)).

(** [calculate_all_moves], [make_random_move] and [make_safe_move] on tables. *)
Definition calculate_all_moves_on (H : HashTable) (height width : Z) : table H :=
  foldl (λ all_moves i,
    foldl (λ all_moves j, t_add H (i, j) all_moves) all_moves (range 0 width))
    (t_empty H) (range 0 height).

Definition make_random_move_on (H : HashTable)
    (all_moves moves_made mines : table H) : option Cell :=
  let remaining_moves := difference_on H all_moves moves_made in
  head (filter (λ move, move ∉ t_iter H mines) (t_iter H remaining_moves)).

Definition make_safe_move_on (H : HashTable) (safes moves_made : table H)
    : option Cell :=
  head (filter (λ safe, safe ∉ t_iter H moves_made) (t_iter H safes)).

(** Two tables hold the same set. *)
Definition same_members (H : HashTable) (t1 t2 : table H) : Prop :=
  ∀ c, c ∈ t_iter H t1 ↔ c ∈ t_iter H t2.

(** Tables that keep their keys in the order of insertion. *)
Definition insertion_order : HashTable :=
  BuildHashTable (list Cell) []
    (λ c t, if decide (c ∈ t) then t else t ++ [c])
    (λ c t, filter (λ k, k ≠ c) t)
    (λ t, t) (λ t, t) remove_dups.

(** Tables that keep their keys in the one order of [gset]: the sets of
    [MinesweeperAI] above. *)
Definition canonical_order : HashTable :=
  BuildHashTable (gset Cell) ∅
    (λ c t, {[c]} ∪ t) (λ c t, t ∖ {[c]})
    (λ t, t) (λ t, t) elements.

(** ** class Minesweeper: construction

    [Minesweeper.__init__] draws cells with [random.randrange] until it has
    placed the number of mines asked for.  The draws are an argument here: the
    pairs [(i, j)] that the successive calls return; [None] means that the
    draws are used up before the loop ends. *)

Record Game := BuildGame {
  game : Minesweeper.t;
  game_mines : gset Cell;
  mines_found : gset Cell
}.

(** The board of [False] that the two nested loops build. *)
Definition empty_board (height width : Z) : list (list bool) :=
  foldl (λ board i,
           board ++ [foldl (λ row j, row ++ [false]) [] (range 0 width)])
        [] (range 0 height).

(** [self.board[i][j] = True], for indices within the board *)
Definition set_mine (i j : Z) (g : Minesweeper.t) : Minesweeper.t :=
  Minesweeper.Build (Minesweeper.height g) (Minesweeper.width g)
    (alter (λ row, <[Z.to_nat j := true]> row) (Z.to_nat i) (Minesweeper.board g)).

(** [while len(self.mines) != mines: ...] *)
Fixpoint place_mines (draws : list Cell) (wanted : Z) (g : Minesweeper.t)
    (placed : gset Cell) : option Game :=
  if decide (Z.of_nat (size placed) ≠ wanted) then
    match draws with
    | [] => None
    | (i, j) :: draws =>
        if negb (Minesweeper.board_at g i j)
        then place_mines draws wanted (set_mine i j g) ({[(i, j)]} ∪ placed)
        else place_mines draws wanted g placed
    end
  else Some (BuildGame g placed ∅).

Definition new_game (draws : list Cell) (height width wanted : Z) : option Game :=
  place_mines draws wanted
    (Minesweeper.Build height width (empty_board height width)) ∅.

(** [Minesweeper.won] *)
Definition won (g : Game) : bool := bool_decide (mines_found g = game_mines g).

(** * Vocabulary of the properties *)

(** How a state evolves during propagation: nothing in
    [reason_about_new_knowledge] allocates a sentence, adds a cell to one,
    appends to the list or removes a cell from [mines], [safes] or
    [moves_made]. *)
Record evolves (s s' : MinesweeperAI) : Prop := Evolves {
  ev_height : height s' = height s;
  ev_width : width s' = width s;
  ev_all_moves : all_moves s' = all_moves s;
  ev_moves_made : moves_made s ⊆ moves_made s';
  ev_mines : mines s ⊆ mines s';
  ev_safes : safes s ⊆ safes s';
  ev_knowledge : (length (knowledge s') ≤ length (knowledge s))%nat;
  ev_store : Forall2 (λ x' x, Sentence.cells x' ⊆ Sentence.cells x) (store s') (store s)
}.

(** The measure of the propagation: the cells left in all sentences. *)
Definition weight (ai : MinesweeperAI) : nat :=
  sum_list_with (λ x, size (Sentence.cells x)) (store ai).

(** What a call of [add_knowledge] keeps: the sets only grow. *)
Record grows (s s' : MinesweeperAI) : Prop := Grows {
  gr_height : height s' = height s;
  gr_width : width s' = width s;
  gr_all_moves : all_moves s' = all_moves s;
  gr_moves_made : moves_made s ⊆ moves_made s';
  gr_mines : mines s ⊆ mines s';
  gr_safes : safes s ⊆ safes s'
}.

(** The state on which [add_knowledge] starts to reason. *)
Definition prepared (cell : Cell) (count : Z) (e : Exec) : Exec :=
  let e := update (set_moves_made (λ m, {[cell]} ∪ m)) e in
  let e := mark_safe cell e in
  let unknown_neighbours := get_unknown_neighbours cell (now e) in
  let new_knowledge := length (store (now e)) in
  let e := update (set_store (λ st, st ++ [Sentence.Build unknown_neighbours count])) e in
  let e := update (set_knowledge (λ k, k ++ [new_knowledge])) e in
  let mines_in_new_knowledge :=
    Sentence.cells (deref (now e) new_knowledge) ∩ mines (now e) in
  foldl (λ e mine, mark_mine mine e) e (elements mines_in_new_knowledge).

(** A sentence is true on the board [g] when its count is the number of
    mines among its cells. *)
Definition true_sentence (g : Minesweeper.t) (s : Sentence.t) : Prop :=
  Sentence.count s
  = Z.of_nat (size (filter (λ c, Minesweeper.is_mine g c = true) (Sentence.cells s))).

(** A state is sound on the board [g] when it has the board's dimensions,
    its known mines are mines, its known safes are not, and every sentence
    ever created is true. *)
Record sound (g : Minesweeper.t) (ai : MinesweeperAI) : Prop := Sound {
  snd_height : height ai = Minesweeper.height g;
  snd_width : width ai = Minesweeper.width g;
  snd_mines : ∀ c, c ∈ mines ai → Minesweeper.is_mine g c = true;
  snd_safes : ∀ c, c ∈ safes ai → Minesweeper.is_mine g c = false;
  snd_store : Forall (true_sentence g) (store ai)
}.

(** Observations as the game makes them: the probed cell is on the board, is
    not a mine, and comes with the board's count of nearby mines. *)
Definition consistent (g : Minesweeper.t) (observations : list (Cell * Z)) : Prop :=
  Forall (λ o, Minesweeper.in_bounds g o.1.1 o.1.2 = true
               ∧ Minesweeper.is_mine g o.1 = false
               ∧ o.2 = Minesweeper.nearby_mines g o.1) observations.

(** Every state an execution went through is sound. *)
Definition all_sound (g : Minesweeper.t) (e : Exec) : Prop :=
  Forall (sound g) (states e).

(** The 3×3 block of cells around [cell], in the order of the nested loops. *)
Definition block (cell : Cell) : list Cell :=
  i ← range (cell.1 - 1) (cell.1 + 2);
  j ← range (cell.2 - 1) (cell.2 + 2);
  [(i, j)].

(** [returned p o]: the execution [o] returned, in a state that passes [p]. *)
Definition returned (p : Exec → bool) (o : option Exec) : bool :=
  from_option p false o.

(** The 2×2 board with its only mine at (1,1). *)
Definition board_2x2 : Minesweeper.t :=
  Minesweeper.Build 2 2 [[false; false]; [false; true]].

(** The 1×3 board with its only mine at (0,2). *)
Definition board_1x3 : Minesweeper.t :=
  Minesweeper.Build 1 3 [[false; false; true]].

(** Where [make_random_move] chooses from. *)
Definition candidates (ai : MinesweeperAI) : gset Cell :=
  all_moves ai ∖ (moves_made ai ∪ mines ai).

#[global] Instance sentence_eq_dec : EqDecision Sentence.t.
Proof. solve_decision. Defined.

#[global] Instance ai_eq_dec : EqDecision MinesweeperAI.
Proof. solve_decision. Defined.

(** The cells within one row and one column of [cell], [cell] excluded. *)
Definition neighbours (cell : Cell) : gset Cell :=
  list_to_set (block cell) ∖ {[cell]}.

(** What [MinesweeperAI.mark_mine] and [MinesweeperAI.mark_safe] make of a
    state: the cell joins the set and the [Sentence] method is called on every
    listed sentence. *)
Definition mark_mine_now (cell : Cell) (ai : MinesweeperAI) : MinesweeperAI :=
  foldl (λ ai sentence, on_sentence sentence (Sentence.mark_mine cell) ai)
        (set_mines (λ m, {[cell]} ∪ m) ai) (knowledge ai).

Definition mark_safe_now (cell : Cell) (ai : MinesweeperAI) : MinesweeperAI :=
  foldl (λ ai sentence, on_sentence sentence (Sentence.mark_safe cell) ai)
        (set_safes (λ m, {[cell]} ∪ m) ai) (knowledge ai).

(** Every listed reference is live, and no listed sentence mentions a cell
    that is already known to be a mine or to be safe. *)
Definition tidy (ai : MinesweeperAI) : Prop :=
  ∀ ref, ref ∈ knowledge ai →
    (ref < length (store ai))%nat
    ∧ (∀ c, c ∈ Sentence.cells (deref ai ref) → (c ∉ mines ai) ∧ (c ∉ safes ai)).

(** No listed sentence tells, by itself, that its cells are mines or that they
    are safe. *)
Definition settled (ai : MinesweeperAI) : Prop :=
  ∀ ref, ref ∈ knowledge ai →
    Sentence.known_mines (deref ai ref) = ∅
    ∧ Sentence.known_safes (deref ai ref) = ∅.

(** The board has the shape that the dimensions announce. *)
Definition shaped (g : Minesweeper.t) : Prop :=
  length (Minesweeper.board g) = Z.to_nat (Minesweeper.height g)
  ∧ Forall (λ row, length row = Z.to_nat (Minesweeper.width g)) (Minesweeper.board g).

(** The board and the set of mines placed so far agree. *)
Definition laid_out (h w : Z) (g : Minesweeper.t) (placed : gset Cell) : Prop :=
  Minesweeper.height g = h ∧ Minesweeper.width g = w ∧ shaped g
  ∧ placed ⊆ calculate_all_moves h w
  ∧ ∀ i j, 0 ≤ i < h → 0 ≤ j < w →
      (Minesweeper.board_at g i j = true ↔ (i, j) ∈ placed).

(** Draws as [random.randrange(height)] and [random.randrange(width)] give
    them. *)
Definition in_range (h w : Z) (draws : list Cell) : Prop :=
  Forall (λ c, 0 ≤ c.1 < h ∧ 0 ≤ c.2 < w) draws.

(** * Frame properties of the primitive updates *)

Section frames.
Implicit Types (ai : MinesweeperAI) (e : Exec) (ref : nat) (c : Cell).

Lemma deref_on_sentence_ne ref ref' f ai :
  ref ≠ ref' → deref (on_sentence ref f ai) ref' = deref ai ref'.
Proof.
  intros Hne. unfold deref, on_sentence; simpl.
  by rewrite list_lookup_alter_ne.
Qed.

Lemma deref_on_sentence_eq ref f ai :
  (ref < length (store ai))%nat →
  deref (on_sentence ref f ai) ref = f (deref ai ref).
Proof.
  intros Hlt. unfold deref, on_sentence; simpl.
  rewrite list_lookup_alter_eq.
  destruct (lookup_lt_is_Some_2 _ _ Hlt) as [s ->]. done.
Qed.

Lemma on_sentence_dangling ref f ai :
  (length (store ai) ≤ ref)%nat → on_sentence ref f ai = ai.
Proof.
  intros Hge. unfold on_sentence, set_store. destruct ai; simpl in *.
  f_equal. apply list_eq; intros j.
  destruct (decide (ref = j)) as [<-|Hne].
  - rewrite list_lookup_alter_eq. by rewrite (lookup_ge_None_2 _ _ Hge).
  - by rewrite list_lookup_alter_ne.
Qed.

Lemma deref_dangling ref ai :
  (length (store ai) ≤ ref)%nat → deref ai ref = Sentence.Build ∅ 0.
Proof. intros Hge. unfold deref. by rewrite (lookup_ge_None_2 _ _ Hge). Qed.

Lemma deref_cells_valid ref ai c :
  c ∈ Sentence.cells (deref ai ref) → (ref < length (store ai))%nat.
Proof.
  intros Hc. destruct (decide (ref < length (store ai))%nat); [done|].
  rewrite deref_dangling in Hc by lia. set_solver.
Qed.

Lemma mark_mine_cells c (s : Sentence.t) :
  Sentence.cells (Sentence.mark_mine c s) = Sentence.cells s ∖ {[c]}.
Proof.
  unfold Sentence.mark_mine. case_decide; simpl; [done|].
  apply set_eq. intros x. rewrite elem_of_difference, elem_of_singleton. naive_solver.
Qed.

Lemma mark_safe_cells c (s : Sentence.t) :
  Sentence.cells (Sentence.mark_safe c s) = Sentence.cells s ∖ {[c]}.
Proof.
  unfold Sentence.mark_safe. case_decide; simpl; [done|].
  apply set_eq. intros x. rewrite elem_of_difference, elem_of_singleton. naive_solver.
Qed.

End frames.

(** * How a state evolves during propagation *)

Section evolution.
Implicit Types (ai s : MinesweeperAI) (e : Exec) (ref : nat) (c : Cell).

Lemma evolves_refl s : evolves s s.
Proof.
  split; try done.
  apply Forall_Forall2_diag, Forall_forall. done.
Qed.

Lemma evolves_trans s1 s2 s3 : evolves s1 s2 → evolves s2 s3 → evolves s1 s3.
Proof.
  intros [] []. split; try congruence; try (etrans; eassumption).
  eapply Forall2_trans; [|eassumption..].
  simpl. intros x y z Hxy Hyz. etrans; eassumption.
Qed.

Lemma foldl_evolves {A} (step : Exec → A → Exec) (l : list A) e :
  (∀ e x, evolves (now e) (now (step e x))) →
  evolves (now e) (now (foldl step e l)).
Proof.
  intros Hstep. revert e.
  induction l as [|x l IH]; intros e; simpl; [apply evolves_refl|].
  eapply evolves_trans; [apply Hstep|apply IH].
Qed.

Lemma on_sentence_evolves ref f ai :
  (∀ x, Sentence.cells (f x) ⊆ Sentence.cells x) → evolves ai (on_sentence ref f ai).
Proof.
  intros Hf. split; try done. simpl.
  apply Forall2_alter_l.
  - apply Forall_Forall2_diag, Forall_forall. done.
  - intros x y Hx Hy ?. simplify_eq. apply Hf.
Qed.

Lemma set_mines_evolves c ai : evolves ai (set_mines (λ m, {[c]} ∪ m) ai).
Proof. split; try done; simpl; [set_solver|]. apply (ev_store _ _ (evolves_refl ai)). Qed.

Lemma set_safes_evolves c ai : evolves ai (set_safes (λ m, {[c]} ∪ m) ai).
Proof. split; try done; simpl; [set_solver|]. apply (ev_store _ _ (evolves_refl ai)). Qed.

Lemma set_moves_made_evolves c ai : evolves ai (set_moves_made (λ m, {[c]} ∪ m) ai).
Proof. split; try done; simpl; [set_solver|]. apply (ev_store _ _ (evolves_refl ai)). Qed.

Lemma delete_length_le {A} (l : list A) i : (length (delete i l) ≤ length l)%nat.
Proof.
  revert i. induction l as [|x l IH]; intros [|i]; simpl; try lia.
  specialize (IH i). lia.
Qed.

Lemma set_knowledge_delete_evolves i ai : evolves ai (set_knowledge (delete i) ai).
Proof.
  split; try done; simpl; [apply delete_length_le|].
  apply (ev_store _ _ (evolves_refl ai)).
Qed.

Lemma mark_mine_evolves c e : evolves (now e) (now (mark_mine c e)).
Proof.
  unfold mark_mine.
  eapply evolves_trans; [|apply foldl_evolves].
  - apply (set_mines_evolves c).
  - intros e' ref. simpl.
    apply on_sentence_evolves. intros x. rewrite mark_mine_cells. set_solver.
Qed.

Lemma mark_safe_evolves c e : evolves (now e) (now (mark_safe c e)).
Proof.
  unfold mark_safe.
  eapply evolves_trans; [|apply foldl_evolves].
  - apply (set_safes_evolves c).
  - intros e' ref. simpl.
    apply on_sentence_evolves. intros x. rewrite mark_safe_cells. set_solver.
Qed.

Lemma clean_up_evolves e : evolves (now e) (now (clean_up_empty_knowledge e)).
Proof.
  unfold clean_up_empty_knowledge. apply foldl_evolves.
  intros e' i. apply set_knowledge_delete_evolves.
Qed.

Lemma clean_up_store e : store (now (clean_up_empty_knowledge e)) = store (now e).
Proof.
  unfold clean_up_empty_knowledge.
  generalize (reverse (filter (λ p, Sentence.len (deref (now e) p.2) = 0)
    (zip (seq 0 (length (knowledge (now e)))) (knowledge (now e)))).*1).
  intros l. revert e. induction l as [|i l IH]; intros e; simpl; [done|].
  by rewrite IH.
Qed.

Lemma mark_mines_evolves (l : list Cell) e :
  evolves (now e) (now (foldl (λ e mine, mark_mine mine e) e l)).
Proof. apply foldl_evolves. intros. apply mark_mine_evolves. Qed.

Lemma mark_safes_evolves (l : list Cell) e :
  evolves (now e) (now (foldl (λ e safe, mark_safe safe e) e l)).
Proof. apply foldl_evolves. intros. apply mark_safe_evolves. Qed.

Lemma discharge_pass_evolves e : evolves (now e) (now (discharge_pass e).1).
Proof.
  unfold discharge_pass. simpl.
  eapply evolves_trans; [apply clean_up_evolves|].
  eapply evolves_trans; [apply mark_mines_evolves|apply mark_safes_evolves].
Qed.

(** Sentences only lose cells, so the weight never grows; it drops as soon
    as one sentence has lost a cell. *)
Lemma evolves_deref s s' ref :
  evolves s s' → Sentence.cells (deref s' ref) ⊆ Sentence.cells (deref s ref).
Proof.
  intros Hev. unfold deref.
  destruct (store s' !! ref) as [x'|] eqn:Hx'; simpl; [|set_solver].
  destruct (Forall2_lookup_l _ _ _ _ _ (ev_store _ _ Hev) Hx') as (x & -> & Hsub).
  done.
Qed.

Lemma weight_le_aux (l' l : list Sentence.t) :
  Forall2 (λ x' x, Sentence.cells x' ⊆ Sentence.cells x) l' l →
  (sum_list_with (λ x, size (Sentence.cells x)) l'
   ≤ sum_list_with (λ x, size (Sentence.cells x)) l)%nat.
Proof.
  induction 1 as [|x' x l' l Hx _ IH]; simpl; [lia|].
  apply subseteq_size in Hx. lia.
Qed.

Lemma evolves_weight s s' : evolves s s' → (weight s' ≤ weight s)%nat.
Proof. intros Hev. apply weight_le_aux, Hev. Qed.

Lemma weight_lt_aux (l' l : list Sentence.t) ref x' x c :
  Forall2 (λ x' x, Sentence.cells x' ⊆ Sentence.cells x) l' l →
  l' !! ref = Some x' → l !! ref = Some x →
  c ∈ Sentence.cells x → c ∉ Sentence.cells x' →
  (sum_list_with (λ x, size (Sentence.cells x)) l'
   < sum_list_with (λ x, size (Sentence.cells x)) l)%nat.
Proof.
  intros Hall. revert ref.
  induction Hall as [|y' y l' l Hy Hall IH]; intros [|ref]; simpl; try done.
  - intros ?? Hc Hc'. simplify_eq.
    assert (Sentence.cells x' ⊂ Sentence.cells x) as Hlt by set_solver.
    apply subset_size in Hlt. apply weight_le_aux in Hall. lia.
  - intros Hl' Hl Hc Hc'. specialize (IH ref Hl' Hl Hc Hc').
    apply subseteq_size in Hy. lia.
Qed.

Lemma evolves_weight_lt s s' ref c :
  evolves s s' →
  c ∈ Sentence.cells (deref s ref) → c ∉ Sentence.cells (deref s' ref) →
  (weight s' < weight s)%nat.
Proof.
  intros Hev Hc Hc'.
  pose proof (deref_cells_valid _ _ _ Hc) as Hlt.
  destruct (lookup_lt_is_Some_2 _ _ Hlt) as [x Hx].
  assert (length (store s') = length (store s)) as Hlen
    by apply (Forall2_length _ _ _ (ev_store _ _ Hev)).
  destruct (lookup_lt_is_Some_2 (store s') ref) as [x' Hx']; [lia|].
  unfold deref in Hc, Hc'. rewrite Hx in Hc. rewrite Hx' in Hc'. simpl in *.
  eapply weight_lt_aux; [apply Hev|eassumption..].
Qed.

End evolution.

(** * What marking a cell does to the listed sentences *)

Section marking.
Implicit Types (ai s : MinesweeperAI) (e : Exec) (ref : nat) (c : Cell).

Lemma broadcast_knowledge (f : Sentence.t → Sentence.t) (l : list nat) e :
  knowledge (now (foldl (λ e sentence, update (on_sentence sentence f) e) e l))
  = knowledge (now e).
Proof.
  revert e. induction l as [|r l IH]; intros e; simpl; [done|]. by rewrite IH.
Qed.

Lemma mark_mine_knowledge c e : knowledge (now (mark_mine c e)) = knowledge (now e).
Proof. unfold mark_mine. by rewrite broadcast_knowledge. Qed.

Lemma mark_safe_knowledge c e : knowledge (now (mark_safe c e)) = knowledge (now e).
Proof. unfold mark_safe. by rewrite broadcast_knowledge. Qed.

Lemma mark_mines_knowledge (l : list Cell) e :
  knowledge (now (foldl (λ e mine, mark_mine mine e) e l)) = knowledge (now e).
Proof.
  revert e. induction l as [|c l IH]; intros e; simpl; [done|].
  by rewrite IH, mark_mine_knowledge.
Qed.

Lemma mark_safes_knowledge (l : list Cell) e :
  knowledge (now (foldl (λ e safe, mark_safe safe e) e l)) = knowledge (now e).
Proof.
  revert e. induction l as [|c l IH]; intros e; simpl; [done|].
  by rewrite IH, mark_safe_knowledge.
Qed.

(** A broadcast that removes [c] from each sentence it visits leaves [c] in
    none of the visited sentences. *)
Lemma broadcast_removes (f : Sentence.t → Sentence.t) c (l : list nat) e ref :
  (∀ x, Sentence.cells (f x) = Sentence.cells x ∖ {[c]}) →
  ref ∈ l →
  c ∉ Sentence.cells
        (deref (now (foldl (λ e sentence, update (on_sentence sentence f) e) e l)) ref).
Proof.
  intros Hf. revert e.
  induction l as [|r l IH]; intros e Hin; [by apply elem_of_nil in Hin|].
  apply elem_of_cons in Hin as [->|Hin]; [|by apply IH].
  simpl. intros Hc.
  eapply (evolves_deref _ _ r) in Hc.
  2:{ apply (foldl_evolves (λ e sentence, update (on_sentence sentence f) e)).
      intros e' r'. simpl. apply on_sentence_evolves.
      intros x. rewrite Hf. set_solver. }
  simpl in Hc.
  destruct (decide (r < length (store (now e)))%nat) as [Hlt|Hge].
  - rewrite deref_on_sentence_eq, Hf in Hc by done. set_solver.
  - rewrite on_sentence_dangling, deref_dangling in Hc by lia. set_solver.
Qed.

Lemma mark_mine_removes c e ref :
  ref ∈ knowledge (now e) → c ∉ Sentence.cells (deref (now (mark_mine c e)) ref).
Proof.
  intros Hin. unfold mark_mine.
  apply broadcast_removes; [apply mark_mine_cells|done].
Qed.

Lemma mark_safe_removes c e ref :
  ref ∈ knowledge (now e) → c ∉ Sentence.cells (deref (now (mark_safe c e)) ref).
Proof.
  intros Hin. unfold mark_safe.
  apply broadcast_removes; [apply mark_safe_cells|done].
Qed.

Lemma mark_mines_remove (l : list Cell) c e ref :
  c ∈ l → ref ∈ knowledge (now e) →
  c ∉ Sentence.cells (deref (now (foldl (λ e mine, mark_mine mine e) e l)) ref).
Proof.
  revert e. induction l as [|d l IH]; intros e Hc Hin; [by apply elem_of_nil in Hc|].
  simpl. apply elem_of_cons in Hc as [->|Hc].
  - intros Hd. apply (evolves_deref _ _ ref (mark_mines_evolves l _)) in Hd.
    by apply mark_mine_removes in Hd.
  - apply IH; [done|]. by rewrite mark_mine_knowledge.
Qed.

Lemma mark_safes_remove (l : list Cell) c e ref :
  c ∈ l → ref ∈ knowledge (now e) →
  c ∉ Sentence.cells (deref (now (foldl (λ e safe, mark_safe safe e) e l)) ref).
Proof.
  revert e. induction l as [|d l IH]; intros e Hc Hin; [by apply elem_of_nil in Hc|].
  simpl. apply elem_of_cons in Hc as [->|Hc].
  - intros Hd. apply (evolves_deref _ _ ref (mark_safes_evolves l _)) in Hd.
    by apply mark_safe_removes in Hd.
  - apply IH; [done|]. by rewrite mark_safe_knowledge.
Qed.

(** The cells gathered by a pass come from listed sentences. *)
Lemma gathered_known ai (l : list nat) (acc : gset Cell * gset Cell) c :
  let known :=
    foldl (λ (known : gset Cell * gset Cell) sentence,
             let (known_mines, known_safes) := known in
             (Sentence.known_mines (deref ai sentence) ∪ known_mines,
              Sentence.known_safes (deref ai sentence) ∪ known_safes))
          acc l in
  (c ∈ known.1 → c ∈ acc.1 ∨ ∃ ref, ref ∈ l ∧ c ∈ Sentence.known_mines (deref ai ref)) ∧
  (c ∈ known.2 → c ∈ acc.2 ∨ ∃ ref, ref ∈ l ∧ c ∈ Sentence.known_safes (deref ai ref)).
Proof.
  revert acc. induction l as [|r l IH]; intros [km ks]; simpl; [by split; left|].
  destruct (IH (Sentence.known_mines (deref ai r) ∪ km,
                Sentence.known_safes (deref ai r) ∪ ks)) as [IH1 IH2].
  simpl in *. split; intros Hc.
  - destruct (IH1 Hc) as [Hacc|(ref & ? & ?)].
    + apply elem_of_union in Hacc as [?|?]; [right; exists r|by left].
      split; [apply elem_of_cons; by left|done].
    + right. exists ref. split; [apply elem_of_cons; by right|done].
  - destruct (IH2 Hc) as [Hacc|(ref & ? & ?)].
    + apply elem_of_union in Hacc as [?|?]; [right; exists r|by left].
      split; [apply elem_of_cons; by left|done].
    + right. exists ref. split; [apply elem_of_cons; by right|done].
Qed.

Lemma known_mines_cells (x : Sentence.t) : Sentence.known_mines x ⊆ Sentence.cells x.
Proof. unfold Sentence.known_mines. case_decide; set_solver. Qed.

Lemma known_safes_cells (x : Sentence.t) : Sentence.known_safes x ⊆ Sentence.cells x.
Proof. unfold Sentence.known_safes. case_decide; set_solver. Qed.

End marking.

(** * Termination of the propagation *)

Section termination.
Implicit Types (ai s : MinesweeperAI) (e : Exec) (ref : nat) (c : Cell).

(** A pass that reports new knowledge has removed a cell from a sentence. *)
Lemma discharge_pass_progress e :
  (discharge_pass e).2 = true →
  (weight (now (discharge_pass e).1) < weight (now e))%nat.
Proof.
  unfold discharge_pass. cbn [fst snd].
  set (e1 := clean_up_empty_knowledge e).
  set (known := foldl _ (∅, ∅) (knowledge (now e1))).
  set (e2 := foldl (λ e mine, mark_mine mine e) e1 (elements known.1)).
  set (e3 := foldl (λ e safe, mark_safe safe e) e2 (elements known.2)).
  intros Hadded.
  pose proof (clean_up_evolves e) as H01. fold e1 in H01.
  pose proof (mark_mines_evolves (elements known.1) e1) as H12. fold e2 in H12.
  pose proof (mark_safes_evolves (elements known.2) e2) as H23. fold e3 in H23.
  assert (knowledge (now e2) = knowledge (now e1)) as Hk12
    by apply mark_mines_knowledge.
  apply evolves_weight in H01.
  enough (weight (now e3) < weight (now e1))%nat by lia.
  destruct (set_choose_or_empty known.1) as [[c Hc]|Hno1].
  - destruct (gathered_known (now e1) (knowledge (now e1)) (∅, ∅) c) as [Hg _].
    destruct (Hg Hc) as [Hacc|(ref & Hin & Hkm)];
      [by apply not_elem_of_empty in Hacc|].
    apply known_mines_cells in Hkm.
    apply (evolves_weight_lt _ _ ref c); [by eapply evolves_trans|done|].
    intros Hc3. apply (evolves_deref _ _ ref H23) in Hc3.
    revert Hc3. apply mark_mines_remove; [by apply elem_of_elements|done].
  - destruct (set_choose_or_empty known.2) as [[c Hc]|Hno2].
    + destruct (gathered_known (now e1) (knowledge (now e1)) (∅, ∅) c) as [_ Hg].
      destruct (Hg Hc) as [Hacc|(ref & Hin & Hks)];
      [by apply not_elem_of_empty in Hacc|].
      apply known_safes_cells in Hks.
      apply (evolves_weight_lt _ _ ref c); [by eapply evolves_trans|done|].
      apply mark_safes_remove; [by apply elem_of_elements|by rewrite Hk12].
    + exfalso. apply leibniz_equiv in Hno1, Hno2.
      assert (e3 = e1) as Heq.
      { unfold e3, e2. rewrite Hno1, Hno2, elements_empty. done. }
      rewrite Heq in Hadded. apply bool_decide_eq_true_1 in Hadded.
      destruct Hadded; congruence.
Qed.

Lemma discharge_loop_terminates fuel e :
  (weight (now e) < fuel)%nat →
  ∃ e', discharge_loop fuel e = Some e' ∧ evolves (now e) (now e').
Proof.
  revert e. induction fuel as [|fuel IH]; intros e Hfuel; [lia|].
  cbn [discharge_loop].
  pose proof (discharge_pass_evolves e) as Hev.
  pose proof (discharge_pass_progress e) as Hlt.
  destruct (discharge_pass e) as [e1 added]; simpl in *.
  destruct added.
  - destruct (IH e1) as (e' & -> & Hev'); [specialize (Hlt eq_refl); lia|].
    exists e'. split; [done|]. by eapply evolves_trans.
  - exists e1. done.
Qed.

Lemma subtract_evolves ref (new : Sentence.t) ai :
  evolves ai (on_sentence ref (subtract new) ai).
Proof. apply on_sentence_evolves. intros x. simpl. set_solver. Qed.

(** The loop over the list, given that the recursive calls return on every
    state lighter than [n] whose list is no longer than [len]. *)
Lemma resolve_loop_terminates (reason : nat → Exec → option Exec) (n len : nat)
    (new_knowledge : nat) :
  (∀ ref e, (weight (now e) < n)%nat → (length (knowledge (now e)) ≤ len)%nat →
            ∃ e', reason ref e = Some e' ∧ evolves (now e) (now e')) →
  ∀ fuel i e,
    (length (knowledge (now e)) ≤ len)%nat →
    (length (knowledge (now e)) - i + 1 ≤ fuel)%nat →
    (weight (now e) ≤ n)%nat →
    (Sentence.cells (deref (now e) new_knowledge) = ∅ → (weight (now e) < n)%nat) →
    ∃ e', resolve_loop fuel reason new_knowledge i e = Some e'
          ∧ evolves (now e) (now e').
Proof.
  intros Hrec. induction fuel as [|fuel IH]; intros i e Hlen Hfuel Hw Hempty.
  - lia.
  - simpl. destruct (knowledge (now e) !! i) as [existing|] eqn:Hex.
    2:{ exists e. split; [done|apply evolves_refl]. }
    pose proof (lookup_lt_Some _ _ _ Hex) as Hi.
    case_decide as Hzero.
    { pose proof (clean_up_evolves e) as Hev.
      destruct (IH (S i) (clean_up_empty_knowledge e)) as (e' & -> & Hev').
      - pose proof (ev_knowledge _ _ Hev). lia.
      - pose proof (ev_knowledge _ _ Hev). lia.
      - pose proof (evolves_weight _ _ Hev). lia.
      - intros Hnew. unfold deref in Hnew, Hempty.
        rewrite clean_up_store in Hnew.
        pose proof (evolves_weight _ _ Hev). specialize (Hempty Hnew). lia.
      - exists e'. split; [done|]. by eapply evolves_trans. }
    case_decide as Hsuper.
    + destruct Hsuper as [Hsub Hne].
      set (e1 := update (on_sentence existing (subtract (deref (now e) new_knowledge))) e).
      assert (evolves (now e) (now e1)) as Hev1 by apply subtract_evolves.
      assert (weight (now e1) < n)%nat as Hlt1.
      { destruct (set_choose_or_empty (Sentence.cells (deref (now e) new_knowledge)))
          as [[c Hc]|Hnone].
        - enough (weight (now e1) < weight (now e))%nat by lia.
          apply (evolves_weight_lt _ _ existing c); [done|set_solver|].
          simpl. rewrite deref_on_sentence_eq.
          + simpl. set_solver.
          + eapply deref_cells_valid. apply Hsub, Hc.
        - apply leibniz_equiv in Hnone.
          pose proof (evolves_weight _ _ Hev1). specialize (Hempty Hnone). lia. }
      destruct (Hrec existing e1) as (e2 & Hr & Hev2); [done| |].
      { pose proof (ev_knowledge _ _ Hev1). lia. }
      fold e1. rewrite Hr. simpl.
      assert (evolves (now e) (now e2)) as Hev02 by (by eapply evolves_trans).
      destruct (IH (S i) e2) as (e' & -> & Hev').
      * pose proof (ev_knowledge _ _ Hev02). lia.
      * pose proof (ev_knowledge _ _ Hev02). lia.
      * pose proof (evolves_weight _ _ Hev2). lia.
      * intros _. pose proof (evolves_weight _ _ Hev2). lia.
      * exists e'. split; [done|]. by eapply evolves_trans.
    + destruct (IH (S i) e) as (e' & -> & Hev'); try done; try lia.
      exists e'. done.
Qed.

Lemma reason_terminates fuel :
  ∀ new_knowledge e,
    (weight (now e) + length (knowledge (now e)) + 3 ≤ fuel)%nat →
    ∃ e', reason_about_new_knowledge fuel new_knowledge e = Some e'
          ∧ evolves (now e) (now e').
Proof.
  induction fuel as [|fuel IH]; intros new e Hfuel; [lia|].
  simpl. case_decide as Hzero.
  { exists e. split; [done|apply evolves_refl]. }
  destruct (discharge_loop_terminates fuel e) as (e1 & -> & Hev1); [lia|].
  simpl.
  destruct (resolve_loop_terminates (reason_about_new_knowledge fuel)
              (weight (now e)) (length (knowledge (now e))) new) with (fuel := fuel)
              (i := 0%nat) (e := e1) as (e' & Hr & Hev').
  - intros ref e2 Hw Hl. apply IH. lia.
  - apply (ev_knowledge _ _ Hev1).
  - pose proof (ev_knowledge _ _ Hev1). lia.
  - apply (evolves_weight _ _ Hev1).
  - intros Hnone.
    destruct (set_choose_or_empty (Sentence.cells (deref (now e) new))) as [[c Hc]|Hnone0].
    + apply (evolves_weight_lt _ _ new c); [done..|]. rewrite Hnone. set_solver.
    + exfalso. apply Hzero. unfold Sentence.len.
      apply leibniz_equiv in Hnone0. rewrite Hnone0, size_empty. done.
  - exists e'. split; [done|]. by eapply evolves_trans.
Qed.

End termination.

(** * More fuel does not change a result *)

Section fuel.
Implicit Types (e : Exec) (fuel : nat).

Lemma discharge_loop_mono fuel fuel' e e' :
  (fuel ≤ fuel')%nat →
  discharge_loop fuel e = Some e' → discharge_loop fuel' e = Some e'.
Proof.
  revert fuel' e. induction fuel as [|fuel IH]; intros [|fuel'] e Hle; try done; [lia|].
  cbn [discharge_loop]. destruct (discharge_pass e) as [e1 []]; [|done].
  apply IH. lia.
Qed.

Lemma resolve_loop_mono (reason reason' : nat → Exec → option Exec) new_knowledge :
  (∀ ref e e', reason ref e = Some e' → reason' ref e = Some e') →
  ∀ fuel fuel' i e e',
    (fuel ≤ fuel')%nat →
    resolve_loop fuel reason new_knowledge i e = Some e' →
    resolve_loop fuel' reason' new_knowledge i e = Some e'.
Proof.
  intros Hrec. induction fuel as [|fuel IH]; intros [|fuel'] i e e' Hle; try done; [lia|].
  cbn [resolve_loop].
  destruct (knowledge (now e) !! i) as [existing|]; [|done].
  case_decide; [apply IH; lia|].
  case_decide; [|apply IH; lia].
  destruct (reason existing _) as [e2|] eqn:Hr; [|done].
  rewrite (Hrec _ _ _ Hr). simpl. apply IH. lia.
Qed.

Lemma reason_mono fuel :
  ∀ fuel' new_knowledge e e',
    (fuel ≤ fuel')%nat →
    reason_about_new_knowledge fuel new_knowledge e = Some e' →
    reason_about_new_knowledge fuel' new_knowledge e = Some e'.
Proof.
  induction fuel as [|fuel IH]; intros [|fuel'] new e e' Hle; try done; [lia|].
  cbn [reason_about_new_knowledge].
  case_decide; [done|].
  destruct (discharge_loop fuel e) as [e1|] eqn:Hd; [|done].
  rewrite (discharge_loop_mono fuel fuel' _ _ ltac:(lia) Hd). simpl.
  apply resolve_loop_mono; [|lia].
  intros ref e2 e3. apply IH. lia.
Qed.

Lemma add_knowledge_mono fuel fuel' cell count e e' :
  (fuel ≤ fuel')%nat →
  add_knowledge fuel cell count e = Some e' →
  add_knowledge fuel' cell count e = Some e'.
Proof. unfold add_knowledge. apply reason_mono. Qed.

Lemma observe_all_mono fuel fuel' observations e e' :
  (fuel ≤ fuel')%nat →
  observe_all fuel observations e = Some e' →
  observe_all fuel' observations e = Some e'.
Proof.
  intros Hle. revert e.
  induction observations as [|[cell count] rest IH]; intros e; simpl; [done|].
  destruct (add_knowledge fuel cell count e) as [e1|] eqn:Ha; [|done].
  rewrite (add_knowledge_mono _ _ _ _ _ _ Hle Ha). simpl. apply IH.
Qed.

End fuel.

(** * Every call returns *)

Section calls.
Implicit Types (ai s : MinesweeperAI) (e : Exec) (ref : nat) (c cell : Cell).

Lemma evolves_grows s s' : evolves s s' → grows s s'.
Proof. intros []. by split. Qed.

Lemma grows_trans s1 s2 s3 : grows s1 s2 → grows s2 s3 → grows s1 s3.
Proof. intros [] []. split; try congruence; etrans; eassumption. Qed.

Lemma add_knowledge_prepared fuel cell count e :
  add_knowledge fuel cell count e
  = reason_about_new_knowledge fuel (length (store (now (mark_safe cell
        (update (set_moves_made (λ m, {[cell]} ∪ m)) e)))))
      (prepared cell count e).
Proof. done. Qed.

Lemma prepared_grows cell count e : grows (now e) (now (prepared cell count e)).
Proof.
  unfold prepared.
  set (e1 := update (set_moves_made (λ m, {[cell]} ∪ m)) e).
  set (e2 := mark_safe cell e1).
  eapply grows_trans; [|apply evolves_grows, mark_mines_evolves].
  assert (grows (now e) (now e1)) as H01
    by apply evolves_grows, (set_moves_made_evolves cell).
  assert (grows (now e1) (now e2)) as H12
    by apply evolves_grows, mark_safe_evolves.
  eapply grows_trans; [exact H01|]. eapply grows_trans; [exact H12|].
  split; done.
Qed.

Lemma prepared_observed cell count e :
  cell ∈ moves_made (now (prepared cell count e))
  ∧ cell ∈ safes (now (prepared cell count e))
  ∧ length (store (now (prepared cell count e))) = S (length (store (now e))).
Proof.
  unfold prepared.
  set (e1 := update (set_moves_made (λ m, {[cell]} ∪ m)) e).
  set (e2 := mark_safe cell e1).
  set (e4 := update (set_knowledge _) (update (set_store _) e2)).
  pose proof (mark_safe_evolves cell e1) as H12. fold e2 in H12.
  pose proof (mark_mines_evolves
    (elements (Sentence.cells (deref (now e4) (length (store (now e2)))) ∩ mines (now e4)))
    e4) as H45.
  assert (cell ∈ safes (now e2)) as Hsafe.
  { unfold e2, mark_safe.
    eapply (ev_safes _ _ (foldl_evolves _ _ _ _)). simpl. set_solver. }
  split; [|split].
  - apply (ev_moves_made _ _ H45). simpl.
    apply (ev_moves_made _ _ H12). simpl. set_solver.
  - apply (ev_safes _ _ H45). simpl. done.
  - rewrite (Forall2_length _ _ _ (ev_store _ _ H45)). simpl.
    rewrite length_app. simpl.
    rewrite (Forall2_length _ _ _ (ev_store _ _ H12)). simpl. lia.
  Unshelve.
  intros e' r. simpl. apply on_sentence_evolves.
  intros x. rewrite mark_safe_cells. set_solver.
Qed.

Lemma add_knowledge_returns cell count e :
  ∃ fuel e', ∀ fuel', (fuel ≤ fuel')%nat →
    add_knowledge fuel' cell count e = Some e'
    ∧ evolves (now (prepared cell count e)) (now e').
Proof.
  set (p := prepared cell count e).
  set (fuel := (weight (now p) + length (knowledge (now p)) + 3)%nat).
  destruct (reason_terminates fuel
              (length (store (now (mark_safe cell
                 (update (set_moves_made (λ m, {[cell]} ∪ m)) e))))) p)
    as (e' & Hr & Hev); [done|].
  exists fuel, e'. intros fuel' Hle. split; [|done].
  rewrite add_knowledge_prepared. by apply (reason_mono fuel).
Qed.

Lemma add_knowledge_grows fuel cell count e e' :
  add_knowledge fuel cell count e = Some e' → grows (now e) (now e').
Proof.
  intros Ha.
  destruct (add_knowledge_returns cell count e) as (fuel0 & e0 & H0).
  destruct (H0 (Nat.max fuel fuel0)) as [Ha0 Hev]; [lia|].
  rewrite (add_knowledge_mono fuel (Nat.max fuel fuel0) _ _ _ _ ltac:(lia) Ha) in Ha0.
  simplify_eq.
  eapply grows_trans; [apply prepared_grows|apply evolves_grows, Hev].
Qed.

Lemma observe_all_returns observations e :
  ∃ fuel e', ∀ fuel', (fuel ≤ fuel')%nat →
    observe_all fuel' observations e = Some e'.
Proof.
  revert e. induction observations as [|[cell count] rest IH]; intros e.
  - exists 0%nat, e. done.
  - destruct (add_knowledge_returns cell count e) as (f1 & e1 & H1).
    destruct (IH e1) as (f2 & e2 & H2).
    exists (Nat.max f1 f2), e2. intros fuel' Hle. simpl.
    destruct (H1 fuel') as [-> _]; [lia|]. simpl. apply H2. lia.
Qed.

End calls.

(** * Soundness with respect to a board *)

Section counting.
Context (P : Cell → Prop) `{!∀ c, Decision (P c)}.
Implicit Types (X Y : gset Cell) (c : Cell).

Lemma size_filter_le X : (size (filter P X) ≤ size X)%nat.
Proof. apply subseteq_size. intros c. rewrite elem_of_filter. tauto. Qed.

Lemma size_filter_remove_true X c :
  c ∈ X → P c → (size (filter P (X ∖ {[c]})) + 1 = size (filter P X))%nat.
Proof.
  intros Hc HP.
  assert (filter P X = filter P (X ∖ {[c]}) ∪ {[c]}) as ->.
  { apply set_eq. intros d.
    rewrite elem_of_union, !elem_of_filter, elem_of_difference, elem_of_singleton.
    destruct (decide (d = c)) as [->|]; naive_solver. }
  rewrite size_union, size_singleton; [done|].
  intros d. rewrite elem_of_filter, elem_of_difference. naive_solver.
Qed.

Lemma filter_remove_false X c : ¬ P c → filter P (X ∖ {[c]}) = filter P X.
Proof.
  intros HP. apply set_eq. intros d.
  rewrite !elem_of_filter, elem_of_difference, elem_of_singleton. naive_solver.
Qed.

Lemma size_filter_difference X Y :
  Y ⊆ X → (size (filter P (X ∖ Y)) + size (filter P Y) = size (filter P X))%nat.
Proof.
  intros Hsub.
  assert (filter P X = filter P (X ∖ Y) ∪ filter P Y) as ->.
  { apply set_eq. intros d.
    rewrite elem_of_union, !elem_of_filter, elem_of_difference.
    destruct (decide (d ∈ Y)); naive_solver. }
  rewrite size_union; [done|].
  intros d. rewrite !elem_of_filter, elem_of_difference. naive_solver.
Qed.

Lemma size_filter_all X c : size (filter P X) = size X → c ∈ X → P c.
Proof.
  intros Hsize Hc.
  assert (filter P X = X) as Heq.
  { apply set_subseteq_size_eq; [|lia].
    intros d. rewrite elem_of_filter. tauto. }
  rewrite <- Heq in Hc. by apply elem_of_filter in Hc as [? _].
Qed.

Lemma size_filter_none X c : size (filter P X) = 0%nat → c ∈ X → ¬ P c.
Proof.
  intros Hsize Hc HP. apply size_empty_inv in Hsize.
  apply (not_elem_of_empty (C:=gset Cell) c). apply Hsize. by apply elem_of_filter.
Qed.

End counting.

Section soundness.
Context (g : Minesweeper.t).
Implicit Types (ai s : MinesweeperAI) (e : Exec) (ref : nat) (c : Cell)
  (x : Sentence.t).

Lemma all_sound_now e : all_sound g e → sound g (now e).
Proof. intros He. by apply Forall_cons in He as [? _]. Qed.

Lemma all_sound_update f e :
  (sound g (now e) → sound g (f (now e))) →
  all_sound g e → all_sound g (update f e).
Proof.
  intros Hf He. apply Forall_cons. split; [|done].
  apply Hf, all_sound_now, He.
Qed.

Lemma all_sound_foldl {A} (step : Exec → A → Exec) (l : list A) e :
  (∀ e a, a ∈ l → all_sound g e → all_sound g (step e a)) →
  all_sound g e → all_sound g (foldl step e l).
Proof.
  revert e. induction l as [|a l IH]; intros e Hstep He; simpl; [done|].
  apply IH.
  - intros e' y Hy. apply Hstep. apply elem_of_cons. by right.
  - apply Hstep; [apply elem_of_cons; by left|done].
Qed.

Lemma true_mark_mine c x :
  Minesweeper.is_mine g c = true → true_sentence g x →
  true_sentence g (Sentence.mark_mine c x).
Proof.
  unfold true_sentence, Sentence.mark_mine. intros Hc Hx.
  case_decide as Hin; simpl; [|done].
  pose proof (size_filter_remove_true (λ c, Minesweeper.is_mine g c = true)
                _ c Hin Hc). lia.
Qed.

Lemma true_mark_safe c x :
  Minesweeper.is_mine g c = false → true_sentence g x →
  true_sentence g (Sentence.mark_safe c x).
Proof.
  unfold true_sentence, Sentence.mark_safe. intros Hc Hx.
  case_decide as Hin; simpl; [|done].
  rewrite filter_remove_false; [done|congruence].
Qed.

Lemma true_subtract (new x : Sentence.t) :
  Sentence.cells new ⊆ Sentence.cells x →
  true_sentence g new → true_sentence g x → true_sentence g (subtract new x).
Proof.
  unfold true_sentence, subtract. intros Hsub Hnew Hx. simpl.
  pose proof (size_filter_difference (λ c, Minesweeper.is_mine g c = true)
                _ _ Hsub). lia.
Qed.

Lemma true_sentence_bounds x :
  true_sentence g x → 0 ≤ Sentence.count x ≤ Sentence.len x.
Proof.
  unfold true_sentence, Sentence.len. intros ->.
  pose proof (size_filter_le (λ c, Minesweeper.is_mine g c = true) (Sentence.cells x)).
  lia.
Qed.

Lemma true_known_mines x c :
  true_sentence g x → c ∈ Sentence.known_mines x → Minesweeper.is_mine g c = true.
Proof.
  unfold true_sentence, Sentence.known_mines, Sentence.len. intros Hx.
  case_decide as Hcount; [|set_solver]. intros Hc.
  apply (size_filter_all (λ c, Minesweeper.is_mine g c = true) (Sentence.cells x));
    [lia|done].
Qed.

Lemma true_known_safes x c :
  true_sentence g x → c ∈ Sentence.known_safes x → Minesweeper.is_mine g c = false.
Proof.
  unfold true_sentence, Sentence.known_safes. intros Hx.
  case_decide as Hcount; [|set_solver]. intros Hc.
  apply not_true_is_false.
  apply (size_filter_none (λ c, Minesweeper.is_mine g c = true) (Sentence.cells x));
    [lia|done].
Qed.

Lemma sound_deref ai ref : sound g ai → true_sentence g (deref ai ref).
Proof.
  intros Hs. unfold deref.
  destruct (store ai !! ref) as [x|] eqn:Hx; simpl.
  - eapply Forall_lookup_1; [apply Hs|done].
  - unfold true_sentence. simpl.
    assert (filter (λ c, Minesweeper.is_mine g c = true) (∅ : gset Cell) = ∅) as ->
      by (apply set_eq; intros d; rewrite elem_of_filter; set_solver).
    by rewrite size_empty.
Qed.

Lemma sound_on_sentence ref f ai :
  (∀ x, store ai !! ref = Some x → true_sentence g x → true_sentence g (f x)) →
  sound g ai → sound g (on_sentence ref f ai).
Proof.
  intros Hf []. split; try done. simpl.
  apply Forall_alter; [done|]. intros x. apply Hf.
Qed.

Lemma sound_set_knowledge f ai : sound g ai → sound g (set_knowledge f ai).
Proof. intros []. by split. Qed.

Lemma sound_set_moves_made f ai : sound g ai → sound g (set_moves_made f ai).
Proof. intros []. by split. Qed.

Lemma all_sound_mark_mine c e :
  Minesweeper.is_mine g c = true → all_sound g e → all_sound g (mark_mine c e).
Proof.
  intros Hc He. unfold mark_mine. apply all_sound_foldl.
  - intros e' ref _. apply all_sound_update, sound_on_sentence.
    intros x _. by apply true_mark_mine.
  - apply all_sound_update; [|done]. intros []. split; try done. simpl.
    intros d [->%elem_of_singleton|?]%elem_of_union; auto.
Qed.

Lemma all_sound_mark_safe c e :
  Minesweeper.is_mine g c = false → all_sound g e → all_sound g (mark_safe c e).
Proof.
  intros Hc He. unfold mark_safe. apply all_sound_foldl.
  - intros e' ref _. apply all_sound_update, sound_on_sentence.
    intros x _. by apply true_mark_safe.
  - apply all_sound_update; [|done]. intros []. split; try done. simpl.
    intros d [->%elem_of_singleton|?]%elem_of_union; auto.
Qed.

Lemma all_sound_clean_up e :
  all_sound g e → all_sound g (clean_up_empty_knowledge e).
Proof.
  unfold clean_up_empty_knowledge. apply all_sound_foldl.
  intros e' i _. apply all_sound_update, sound_set_knowledge.
Qed.

Lemma all_sound_discharge_pass e :
  all_sound g e → all_sound g (discharge_pass e).1.
Proof.
  intros He. unfold discharge_pass. simpl.
  set (e1 := clean_up_empty_knowledge e).
  set (known := foldl _ (∅, ∅) (knowledge (now e1))).
  assert (all_sound g e1) as He1 by by apply all_sound_clean_up.
  pose proof (all_sound_now _ He1) as Hs1.
  apply all_sound_foldl; [|apply all_sound_foldl; [|done]].
  - intros e' c Hc. apply all_sound_mark_safe.
    apply elem_of_elements in Hc.
    destruct (gathered_known (now e1) (knowledge (now e1)) (∅, ∅) c) as [_ Hg].
    destruct (Hg Hc) as [Hacc|(ref & _ & Hks)];
      [by apply not_elem_of_empty in Hacc|].
    eapply true_known_safes; [|exact Hks]. by apply sound_deref.
  - intros e' c Hc. apply all_sound_mark_mine.
    apply elem_of_elements in Hc.
    destruct (gathered_known (now e1) (knowledge (now e1)) (∅, ∅) c) as [Hg _].
    destruct (Hg Hc) as [Hacc|(ref & _ & Hkm)];
      [by apply not_elem_of_empty in Hacc|].
    eapply true_known_mines; [|exact Hkm]. by apply sound_deref.
Qed.

Lemma all_sound_discharge_loop fuel e e' :
  discharge_loop fuel e = Some e' → all_sound g e → all_sound g e'.
Proof.
  revert e. induction fuel as [|fuel IH]; intros e; [done|].
  cbn [discharge_loop]. intros Hloop He.
  pose proof (all_sound_discharge_pass e He) as Hpass.
  destruct (discharge_pass e) as [e1 []]; simpl in *.
  - by eapply IH.
  - by simplify_eq.
Qed.

Lemma all_sound_resolve_loop (reason : nat → Exec → option Exec) new_knowledge :
  (∀ ref e e', reason ref e = Some e' → all_sound g e → all_sound g e') →
  ∀ fuel i e e',
    resolve_loop fuel reason new_knowledge i e = Some e' →
    all_sound g e → all_sound g e'.
Proof.
  intros Hrec. induction fuel as [|fuel IH]; intros i e e'; [done|].
  cbn [resolve_loop]. intros Hloop He.
  destruct (knowledge (now e) !! i) as [existing|]; [|by simplify_eq].
  case_decide.
  { eapply IH; [done|]. by apply all_sound_clean_up. }
  case_decide as Hsuper; [|by eapply IH].
  destruct Hsuper as [Hsub _].
  destruct (reason existing _) as [e2|] eqn:Hr; [|done]. simpl in Hloop.
  eapply IH; [done|]. eapply Hrec; [done|].
  apply all_sound_update; [|done]. intros Hs.
  apply sound_on_sentence; [|done]. intros x Hx.
  apply true_subtract; [|by apply sound_deref].
  unfold deref in Hsub at 2. by rewrite Hx in Hsub.
Qed.

Lemma all_sound_reason fuel :
  ∀ new_knowledge e e',
    reason_about_new_knowledge fuel new_knowledge e = Some e' →
    all_sound g e → all_sound g e'.
Proof.
  induction fuel as [|fuel IH]; intros new e e'; [done|].
  cbn [reason_about_new_knowledge]. intros Hr He.
  case_decide; [by simplify_eq|].
  destruct (discharge_loop fuel e) as [e1|] eqn:Hd; [|done]. simpl in Hr.
  eapply all_sound_resolve_loop; [|exact Hr|by eapply all_sound_discharge_loop].
  intros ref e2 e3. apply IH.
Qed.

End soundness.

(** * The sentence built from an observation *)

Section observation.
Implicit Types (ai : MinesweeperAI) (e : Exec) (c cell : Cell).

(** Two nested loops, the outer one skipping some rows, are one loop over
    the pairs. *)
Lemma foldl_nested {A} (skip : Z → bool) (body : A → Z → Z → A)
    (rows cols : list Z) (acc : A) :
  foldl (λ acc i, if skip i then acc
                  else foldl (λ acc j, body acc i j) acc cols) acc rows
  = foldl (λ acc p, if skip p.1 then acc else body acc p.1 p.2) acc
          (i ← rows; j ← cols; [(i, j)]).
Proof.
  revert acc. induction rows as [|i rows IH]; intros acc; [done|].
  rewrite bind_cons, foldl_app. cbn [foldl]. rewrite IH. f_equal.
  clear IH. revert acc. induction cols as [|j cols IH]; intros acc.
  - simpl. by destruct (skip i).
  - rewrite bind_cons, foldl_app. cbn [foldl].
    rewrite <- IH. simpl. by destruct (skip i).
Qed.

Lemma foldl_pointwise {A B} (f f' : A → B → A) (l : list B) (acc : A) :
  (∀ acc b, f acc b = f' acc b) → foldl f acc l = foldl f' acc l.
Proof.
  intros Hf. revert acc. induction l as [|b l IH]; intros acc; simpl; [done|].
  by rewrite Hf, IH.
Qed.

Lemma nearby_mines_flat (g : Minesweeper.t) cell :
  Minesweeper.nearby_mines g cell
  = foldl (λ count p,
      if decide (p = cell) then count
      else if Minesweeper.in_bounds g p.1 p.2
           then if Minesweeper.board_at g p.1 p.2 then count + 1 else count
           else count) 0 (block cell).
Proof.
  unfold Minesweeper.nearby_mines, block.
  rewrite (foldl_nested (λ _, false)
    (λ count i j, if decide ((i, j) = cell) then count
                  else if Minesweeper.in_bounds g i j
                       then if Minesweeper.board_at g i j then count + 1 else count
                       else count)).
  apply foldl_pointwise. intros count [i j]. done.
Qed.

Lemma get_unknown_neighbours_flat cell ai :
  get_unknown_neighbours cell ai
  = foldl (λ neighbours p,
      if (p.1 <? 0) || (p.1 >=? height ai) then neighbours
      else if (p.2 <? 0) || (p.2 >=? width ai) then neighbours
      else if decide (p ∉ safes ai) then {[p]} ∪ neighbours
      else neighbours) ∅ (block cell).
Proof.
  destruct cell as [row col]. unfold get_unknown_neighbours, block. simpl.
  rewrite (foldl_nested (λ i, (i <? 0) || (i >=? height ai))
    (λ neighbours i j,
       if (j <? 0) || (j >=? width ai) then neighbours
       else if decide ((i, j) ∉ safes ai) then {[(i, j)]} ∪ neighbours
       else neighbours)).
  apply foldl_pointwise. intros nb [i j]. done.
Qed.

End observation.

Section new_sentence.
Implicit Types (ai : MinesweeperAI) (e : Exec) (c cell p : Cell).

Lemma block_NoDup cell : NoDup (block cell).
Proof.
  unfold block, range. apply NoDup_bind; [| |apply NoDup_seqZ].
  - intros i1 i2 p _ _ (j1 & Hp1 & _)%list_elem_of_bind (j2 & Hp2 & _)%list_elem_of_bind.
    apply list_elem_of_singleton in Hp1, Hp2. congruence.
  - intros i _. apply NoDup_bind; [| |apply NoDup_seqZ].
    + intros j1 j2 p _ _ Hp1%list_elem_of_singleton Hp2%list_elem_of_singleton.
      congruence.
    + intros j _. apply NoDup_singleton.
Qed.

Lemma in_bounds_spec (g : Minesweeper.t) i j :
  Minesweeper.in_bounds g i j = true
  ↔ 0 ≤ i < Minesweeper.height g ∧ 0 ≤ j < Minesweeper.width g.
Proof.
  unfold Minesweeper.in_bounds.
  rewrite !andb_true_iff, !Z.leb_le, !Z.ltb_lt. lia.
Qed.

Lemma out_of_range_spec i h : (i <? 0) || (i >=? h) = false ↔ 0 ≤ i < h.
Proof.
  rewrite orb_false_iff, Z.ltb_ge, Z.geb_leb, Z.leb_gt. lia.
Qed.

Lemma collect_elem (Q : Cell → Prop) `{!∀ p, Decision (Q p)}
    (step : gset Cell → Cell → gset Cell)
    (l : list Cell) (acc : gset Cell) c :
  (∀ acc p, Q p → step acc p = {[p]} ∪ acc) →
  (∀ acc p, ¬ Q p → step acc p = acc) →
  c ∈ foldl step acc l ↔ c ∈ acc ∨ (c ∈ l ∧ Q c).
Proof.
  intros Hyes Hno. revert acc.
  induction l as [|p l IH]; intros acc; simpl.
  - split; [by left|]. intros [?|[[]%elem_of_nil _]]. done.
  - rewrite IH, elem_of_cons. destruct (decide (Q p)) as [HQ|HQ].
    + rewrite Hyes by done. rewrite elem_of_union, elem_of_singleton. naive_solver.
    + rewrite Hno by done. naive_solver.
Qed.

Lemma count_filter (R : Cell → Prop) `{!∀ p, Decision (R p)}
    (step : Z → Cell → Z) (l : list Cell) (n : Z) :
  (∀ n p, R p → step n p = n + 1) →
  (∀ n p, ¬ R p → step n p = n) →
  foldl step n l = n + Z.of_nat (length (filter R l)).
Proof.
  intros Hyes Hno. revert n.
  induction l as [|p l IH]; intros n; simpl; [lia|].
  rewrite IH. destruct (decide (R p)) as [HR|HR].
  - rewrite Hyes, filter_cons_True by done. simpl. lia.
  - rewrite Hno, filter_cons_False by done. lia.
Qed.

Lemma get_unknown_neighbours_elem cell ai c :
  c ∈ get_unknown_neighbours cell ai
  ↔ c ∈ block cell ∧ (0 ≤ c.1 < height ai ∧ 0 ≤ c.2 < width ai) ∧ c ∉ safes ai.
Proof.
  rewrite get_unknown_neighbours_flat.
  rewrite (collect_elem
    (λ p, (0 ≤ p.1 < height ai ∧ 0 ≤ p.2 < width ai) ∧ p ∉ safes ai)).
  - set_solver.
  - intros acc p [[H1%out_of_range_spec H2%out_of_range_spec] H3].
    rewrite H1, H2. by rewrite decide_True.
  - intros acc p Hp.
    destruct ((p.1 <? 0) || (p.1 >=? height ai)) eqn:H1; [done|].
    destruct ((p.2 <? 0) || (p.2 >=? width ai)) eqn:H2; [done|].
    apply out_of_range_spec in H1, H2.
    case_decide; [|done]. tauto.
Qed.

(** The sentence that [add_knowledge] creates from a count given by the
    board is true on the board. *)
Lemma new_sentence_true (g : Minesweeper.t) cell ai :
  sound g ai → cell ∈ safes ai →
  true_sentence g (Sentence.Build (get_unknown_neighbours cell ai)
                                  (Minesweeper.nearby_mines g cell)).
Proof.
  intros Hs Hcell. unfold true_sentence. simpl.
  set (R := λ p : Cell, p ≠ cell ∧ Minesweeper.in_bounds g p.1 p.2 = true
                        ∧ Minesweeper.board_at g p.1 p.2 = true).
  rewrite nearby_mines_flat, (count_filter R).
  2:{ intros n p (Hne & Hin & Hb). rewrite decide_False, Hin, Hb by done. done. }
  2:{ intros n p HR. case_decide; [done|].
      destruct (Minesweeper.in_bounds g p.1 p.2) eqn:Hin; [|done].
      destruct (Minesweeper.board_at g p.1 p.2) eqn:Hb; [|done].
      exfalso. apply HR. done. }
  f_equal. rewrite Z.add_0_l. f_equal.
  assert (filter (λ c, Minesweeper.is_mine g c = true) (get_unknown_neighbours cell ai)
          = list_to_set (filter R (block cell))) as ->.
  { apply set_eq. intros [i j].
    rewrite elem_of_filter, get_unknown_neighbours_elem, elem_of_list_to_set,
      list_elem_of_filter.
    unfold R. rewrite in_bounds_spec. simpl.
    rewrite (snd_height _ _ Hs), (snd_width _ _ Hs).
    split.
    - intros (Hm & Hb & Hin & Hns). split; [|done]. split; [|done].
      intros Heq. subst cell. done.
    - intros ((Hne & Hin & Hb) & Hbl). split; [done|]. split; [done|]. split; [done|].
      intros Hsafe. apply (snd_safes _ _ Hs) in Hsafe. simpl in Hsafe. congruence. }
  rewrite size_list_to_set; [done|].
  apply NoDup_filter, block_NoDup.
Qed.

End new_sentence.

Section sound_calls.
Context (g : Minesweeper.t).
Implicit Types (ai : MinesweeperAI) (e : Exec) (c cell : Cell).

Lemma mark_safe_in_safes cell e : cell ∈ safes (now (mark_safe cell e)).
Proof.
  unfold mark_safe.
  eapply ev_safes.
  - apply (foldl_evolves
      (λ e sentence, update (on_sentence sentence (Sentence.mark_safe cell)) e)).
    intros e' r. simpl. apply on_sentence_evolves.
    intros x. rewrite mark_safe_cells. set_solver.
  - simpl. set_solver.
Qed.

Lemma all_sound_prepared cell e :
  Minesweeper.is_mine g cell = false →
  all_sound g e →
  all_sound g (prepared cell (Minesweeper.nearby_mines g cell) e).
Proof.
  intros Hcell He. unfold prepared.
  set (e1 := update (set_moves_made (λ m, {[cell]} ∪ m)) e).
  set (e2 := mark_safe cell e1).
  set (e3 := update (set_store _) e2).
  set (e4 := update (set_knowledge _) e3).
  assert (all_sound g e2) as He2.
  { apply all_sound_mark_safe; [done|].
    apply all_sound_update; [apply sound_set_moves_made|done]. }
  assert (all_sound g e4) as He4.
  { apply all_sound_update; [apply sound_set_knowledge|].
    apply all_sound_update; [|done]. intros Hs2.
    pose proof (new_sentence_true g cell (now e2) Hs2 (mark_safe_in_safes cell e1)).
    destruct Hs2. split; try done. simpl.
    apply Forall_app. split; [done|]. by apply Forall_singleton. }
  apply all_sound_foldl; [|done].
  intros e' c [_ Hc]%elem_of_elements%elem_of_intersection He'.
  apply all_sound_mark_mine; [|done].
  apply (snd_mines _ _ (all_sound_now _ _ He4)), Hc.
Qed.

Lemma all_sound_add_knowledge fuel cell e e' :
  Minesweeper.is_mine g cell = false →
  add_knowledge fuel cell (Minesweeper.nearby_mines g cell) e = Some e' →
  all_sound g e → all_sound g e'.
Proof.
  intros Hcell Ha He. rewrite add_knowledge_prepared in Ha.
  eapply all_sound_reason; [exact Ha|]. by apply all_sound_prepared.
Qed.

Lemma all_sound_observe_all fuel observations e e' :
  consistent g observations →
  observe_all fuel observations e = Some e' →
  all_sound g e → all_sound g e'.
Proof.
  intros Hobs. revert e.
  induction Hobs as [|[cell count] rest (_ & Hcell & Hcount) _ IH]; intros e; simpl.
  - intros. by simplify_eq.
  - simpl in *. subst count.
    destruct (add_knowledge _ _ _ e) as [e1|] eqn:Ha; [|done]. simpl.
    intros Hrest He. apply (IH e1 Hrest).
    by eapply all_sound_add_knowledge.
Qed.

Lemma all_sound_init :
  all_sound g (start (init (Minesweeper.height g) (Minesweeper.width g))).
Proof.
  apply Forall_singleton. split; try done; simpl; set_solver.
Qed.

End sound_calls.

(** * Concrete games *)

Lemma returned_spec p o : returned p o = true → ∃ e, o = Some e ∧ p e = true.
Proof. destruct o as [e|]; [|done]. intros Hp. by exists e. Qed.

(** * The claims *)

(** C1, as stated, fails: nothing checks the count that the caller passes.
    On a fresh 2×2 board, [add_knowledge((0,0), 5)] leaves a sentence of three
    cells with count 5. *)
Lemma count_above_cells :
  ∃ e', add_knowledge 10 (0, 0) 5 (start (init 2 2)) = Some e'
        ∧ ∃ s, s ∈ store (now e')
               ∧ ¬ (0 ≤ Sentence.count s ≤ Sentence.len s).
Proof.
  destruct (returned_spec
    (λ e, bool_decide (Exists (λ s, ¬ (0 ≤ Sentence.count s ≤ Sentence.len s))
                              (store (now e))))
    (add_knowledge 10 (0, 0) 5 (start (init 2 2)))) as (e' & He' & Hp);
    [vm_compute; reflexivity|].
  exists e'. split; [exact He'|].
  apply bool_decide_eq_true_1, Exists_exists in Hp. exact Hp.
Qed.

(** C1, amended: when the observations are those of a board (each probed cell
    is on the board, is not a mine and comes with the board's count of nearby
    mines), the calls return and every sentence ever created satisfies
    [0 ≤ count ≤ |cells|] in every state the knowledge base goes through,
    a state being taken after each update of one object. *)
Theorem sentence_counts_bounded (g : Minesweeper.t) (observations : list (Cell * Z)) :
  consistent g observations →
  ∃ fuel e',
    observe_all fuel observations
      (start (init (Minesweeper.height g) (Minesweeper.width g))) = Some e'
    ∧ ∀ ai, ai ∈ states e' →
        ∀ s, s ∈ store ai → 0 ≤ Sentence.count s ≤ Sentence.len s.
Proof.
  intros Hobs.
  destruct (observe_all_returns observations
    (start (init (Minesweeper.height g) (Minesweeper.width g)))) as (fuel & e' & Hrun).
  exists fuel, e'. split; [by apply Hrun|].
  pose proof (all_sound_observe_all g fuel observations _ e' Hobs
                (Hrun fuel (le_n _)) (all_sound_init g)) as Hsound.
  intros ai Hai s Hs.
  apply (true_sentence_bounds g).
  eapply Forall_forall; [|exact Hs].
  apply snd_store. eapply Forall_forall; [exact Hsound|exact Hai].
Qed.

(** The two observations of scenario B are those of the 2×2 board. *)
Lemma consistent_2x2 : consistent board_2x2 [((0, 0), 1); ((0, 1), 1)].
Proof. repeat constructor. Defined.

(** The bound on the counts, on the observations of scenario B. *)
Lemma sentence_counts_bounded_witness :
  consistent board_2x2 [((0, 0), 1); ((0, 1), 1)]
  ∧ ∃ fuel e',
      observe_all fuel [((0, 0), 1); ((0, 1), 1)] (start (init 2 2)) = Some e'
      ∧ ∀ ai, ai ∈ states e' →
          ∀ s, s ∈ store ai → 0 ≤ Sentence.count s ≤ Sentence.len s.
Proof.
  split; [exact consistent_2x2|].
  exact (sentence_counts_bounded board_2x2 _ consistent_2x2).
Defined.

(** C2, as stated, fails: with counts that no board can give, a cell ends in
    both sets.  [add_knowledge((0,0), 3)] makes the three other cells mines,
    [add_knowledge((0,1), 0)] then marks (0,1) safe. *)
Lemma known_sets_overlap :
  ∃ e', observe_all 10 [((0, 0), 3); ((0, 1), 0)] (start (init 2 2)) = Some e'
        ∧ safes (now e') ∩ mines (now e') ≠ ∅.
Proof.
  destruct (returned_spec
    (λ e, bool_decide ((0, 1) ∈ safes (now e) ∩ mines (now e)))
    (observe_all 10 [((0, 0), 3); ((0, 1), 0)] (start (init 2 2))))
    as (e' & He' & Hp); [vm_compute; reflexivity|].
  exists e'. split; [exact He'|].
  apply bool_decide_eq_true_1 in Hp. intros Hempty.
  rewrite Hempty in Hp. exact (not_elem_of_empty _ Hp).
Qed.

(** C2, amended: when the observations are those of a board, the calls return
    and [safes] and [mines] are disjoint in every state the knowledge base
    goes through, mid-propagation included. *)
Theorem known_sets_disjoint (g : Minesweeper.t) (observations : list (Cell * Z)) :
  consistent g observations →
  ∃ fuel e',
    observe_all fuel observations
      (start (init (Minesweeper.height g) (Minesweeper.width g))) = Some e'
    ∧ ∀ ai, ai ∈ states e' → safes ai ∩ mines ai = ∅.
Proof.
  intros Hobs.
  destruct (observe_all_returns observations
    (start (init (Minesweeper.height g) (Minesweeper.width g)))) as (fuel & e' & Hrun).
  exists fuel, e'. split; [by apply Hrun|].
  pose proof (all_sound_observe_all g fuel observations _ e' Hobs
                (Hrun fuel (le_n _)) (all_sound_init g)) as Hsound.
  intros ai Hai.
  assert (sound g ai) as Hs by (eapply Forall_forall; [exact Hsound|exact Hai]).
  apply set_eq. intros c. split; [|by intros []%not_elem_of_empty].
  intros [Hsafe Hmine]%elem_of_intersection.
  apply (snd_safes _ _ Hs) in Hsafe. apply (snd_mines _ _ Hs) in Hmine. congruence.
Qed.

(** Disjointness, on the observations of scenario B. *)
Lemma known_sets_disjoint_witness :
  consistent board_2x2 [((0, 0), 1); ((0, 1), 1)]
  ∧ ∃ fuel e',
      observe_all fuel [((0, 0), 1); ((0, 1), 1)] (start (init 2 2)) = Some e'
      ∧ ∀ ai, ai ∈ states e' → safes ai ∩ mines ai = ∅.
Proof.
  split; [exact consistent_2x2|].
  exact (known_sets_disjoint board_2x2 _ consistent_2x2).
Defined.

(** C3 does not hold of the code.  On the 1×3 board with its mine at (0,2),
    [add_knowledge((0,1), 1)] records [{(0,0), (0,2)} = 1]; in
    [add_knowledge((0,0), 0)], marking (0,0) safe turns that sentence into
    [{(0,2)} = 1], the new sentence has no cells, and
    [reason_about_new_knowledge] returns at once: the sentence with
    [count = |cells| = 1] stays in the list, and (0,2) is not marked. *)
Theorem undischarged_sentence_remains :
  consistent board_1x3 [((0, 1), 1); ((0, 0), 0)]
  ∧ ∃ e', observe_all 10 [((0, 1), 1); ((0, 0), 0)] (start (init 1 3)) = Some e'
          ∧ sentences (now e') = [Sentence.Build {[(0, 2)]} 1; Sentence.Build ∅ 0]
          ∧ mines (now e') = ∅.
Proof.
  split; [repeat constructor|].
  destruct (returned_spec
    (λ e, bool_decide
            (sentences (now e) = [Sentence.Build {[(0, 2)]} 1; Sentence.Build ∅ 0]
             ∧ mines (now e) = ∅))
    (observe_all 10 [((0, 1), 1); ((0, 0), 0)] (start (init 1 3))))
    as (e' & He' & Hp); [vm_compute; reflexivity|].
  exists e'. split; [exact He'|]. apply bool_decide_eq_true_1 in Hp. exact Hp.
Qed.

(** C4, as stated, fails: the code raises no error.  On a fresh 2×2 board,
    [add_knowledge((0,0), 1)] then [add_knowledge((0,1), 2)] make the first
    sentence lose its last two cells with count 1: its count becomes -1, it
    is dropped from the list, and the call returns. *)
Lemma negative_count_returns :
  ∃ e', observe_all 10 [((0, 0), 1); ((0, 1), 2)] (start (init 2 2)) = Some e'
        ∧ store (now e') !! 0%nat = Some (Sentence.Build ∅ (-1))
        ∧ knowledge (now e') = [].
Proof.
  destruct (returned_spec
    (λ e, bool_decide (store (now e) !! 0%nat = Some (Sentence.Build ∅ (-1))
                       ∧ knowledge (now e) = []))
    (observe_all 10 [((0, 0), 1); ((0, 1), 2)] (start (init 2 2))))
    as (e' & He' & Hp); [vm_compute; reflexivity|].
  exists e'. split; [exact He'|]. apply bool_decide_eq_true_1 in Hp. exact Hp.
Qed.

(** C4, amended: [add_knowledge] has no failure: from every state, every
    sequence of observations, whatever its counts, makes every call return. *)
Theorem observations_never_fail (observations : list (Cell * Z)) (e : Exec) :
  ∃ fuel e', observe_all fuel observations e = Some e'.
Proof.
  destruct (observe_all_returns observations e) as (fuel & e' & Hrun).
  exists fuel, e'. by apply Hrun.
Qed.

(** C5, as stated, fails: after the two observations of scenario B neither
    (1,1) is a known mine nor (1,0) a known safe. *)
Lemma scenario_B_no_deduction :
  ∃ e', observe_all 10 [((0, 0), 1); ((0, 1), 1)] (start (init 2 2)) = Some e'
        ∧ ¬ ((1, 1) ∈ mines (now e') ∧ (1, 0) ∈ safes (now e')).
Proof.
  destruct (returned_spec
    (λ e, bool_decide ((1, 1) ∉ mines (now e)))
    (observe_all 10 [((0, 0), 1); ((0, 1), 1)] (start (init 2 2))))
    as (e' & He' & Hp); [vm_compute; reflexivity|].
  exists e'. split; [exact He'|].
  apply bool_decide_eq_true_1 in Hp. intros [Hmine _]. exact (Hp Hmine).
Qed.

(** C5, amended: after [add_knowledge((0,0), 1)] and [add_knowledge((0,1), 1)]
    on a fresh 2×2 board no mine is known, the known safes are the two probed
    cells, and the knowledge is twice the sentence [{(1,0), (1,1)} = 1]. *)
Theorem scenario_B_result :
  ∃ e', observe_all 10 [((0, 0), 1); ((0, 1), 1)] (start (init 2 2)) = Some e'
        ∧ mines (now e') = ∅
        ∧ safes (now e') = {[(0, 0); (0, 1)]}
        ∧ sentences (now e') = [Sentence.Build {[(1, 0); (1, 1)]} 1;
                                Sentence.Build {[(1, 0); (1, 1)]} 1].
Proof.
  destruct (returned_spec
    (λ e, bool_decide
            (mines (now e) = ∅
             ∧ safes (now e) = {[(0, 0); (0, 1)]}
             ∧ sentences (now e) = [Sentence.Build {[(1, 0); (1, 1)]} 1;
                                    Sentence.Build {[(1, 0); (1, 1)]} 1]))
    (observe_all 10 [((0, 0), 1); ((0, 1), 1)] (start (init 2 2))))
    as (e' & He' & Hp); [vm_compute; reflexivity|].
  exists e'. split; [exact He'|]. apply bool_decide_eq_true_1 in Hp. exact Hp.
Qed.

(** C6, as stated, fails: a second [add_knowledge] for the same cell and one
    for a cell outside the grid both return and change the state. *)
Lemma repeated_and_outside_cells_accepted :
  (∃ e1 e2, add_knowledge 10 (0, 0) 1 (start (init 2 2)) = Some e1
            ∧ add_knowledge 10 (0, 0) 1 e1 = Some e2
            ∧ now e2 ≠ now e1)
  ∧ (∃ e', add_knowledge 10 (5, 5) 0 (start (init 2 2)) = Some e'
           ∧ now e' ≠ init 2 2).
Proof.
  split.
  - destruct (returned_spec
      (λ e1, returned (λ e2, bool_decide (now e2 ≠ now e1))
                      (add_knowledge 10 (0, 0) 1 e1))
      (add_knowledge 10 (0, 0) 1 (start (init 2 2)))) as (e1 & He1 & Hp);
      [vm_compute; reflexivity|].
    apply returned_spec in Hp as (e2 & He2 & Hp).
    exists e1, e2. split; [exact He1|]. split; [exact He2|].
    apply bool_decide_eq_true_1 in Hp. exact Hp.
  - destruct (returned_spec
      (λ e, bool_decide (now e ≠ init 2 2))
      (add_knowledge 10 (5, 5) 0 (start (init 2 2)))) as (e' & He' & Hp);
      [vm_compute; reflexivity|].
    exists e'. split; [exact He'|]. apply bool_decide_eq_true_1 in Hp. exact Hp.
Qed.

(** C6, amended: [add_knowledge] checks nothing about the cell: for every
    state, cell (already observed or outside the grid included) and count,
    the call returns, and afterwards the cell is in [moves_made] and in
    [safes] and one more sentence has been created. *)
Theorem every_cell_accepted (e : Exec) (cell : Cell) (count : Z) :
  ∃ fuel e',
    add_knowledge fuel cell count e = Some e'
    ∧ cell ∈ moves_made (now e')
    ∧ cell ∈ safes (now e')
    ∧ length (store (now e')) = S (length (store (now e))).
Proof.
  destruct (add_knowledge_returns cell count e) as (fuel & e' & Hrun).
  destruct (Hrun fuel (le_n _)) as [Ha Hev].
  destruct (prepared_observed cell count e) as (Hmoves & Hsafes & Hlen).
  exists fuel, e'. split; [done|]. split; [|split].
  - by apply (ev_moves_made _ _ Hev).
  - by apply (ev_safes _ _ Hev).
  - by rewrite (Forall2_length _ _ _ (ev_store _ _ Hev)).
Qed.

(** C7: for every state and every observation, [add_knowledge] returns: the
    [while] loop, the loop over the list and the recursion of
    [reason_about_new_knowledge] all end, with a bound on the fuel needed. *)
Theorem add_knowledge_terminates (e : Exec) (cell : Cell) (count : Z) :
  ∃ fuel e', ∀ fuel', (fuel ≤ fuel')%nat →
    add_knowledge fuel' cell count e = Some e'.
Proof.
  destruct (add_knowledge_returns cell count e) as (fuel & e' & Hrun).
  exists fuel, e'. intros fuel' Hle. by apply Hrun.
Qed.

(** What [make_random_move] does do: its result is a cell of the board that
    is neither chosen already nor a known mine, and there is a result unless
    no such cell is left. *)
Lemma make_random_move_elem (ai : MinesweeperAI) (c : Cell) :
  make_random_move ai = Some c → c ∈ candidates ai.
Proof.
  unfold make_random_move, candidates. intros Hc.
  apply head_Some_elem_of, list_elem_of_filter in Hc as [Hmine Hrest].
  apply elem_of_elements in Hrest. set_solver.
Qed.

Lemma make_random_move_None (ai : MinesweeperAI) :
  make_random_move ai = None ↔ candidates ai = ∅.
Proof.
  unfold make_random_move, candidates. rewrite head_None. split.
  - intros Hnil. apply set_eq. intros c.
    split; [|by intros []%not_elem_of_empty].
    intros [Hc Hnot]%elem_of_difference. exfalso.
    apply (filter_nil_not_elem_of _ _ c Hnil); [set_solver|].
    apply elem_of_elements. set_solver.
  - intros Hempty.
    destruct (filter _ _) as [|c l] eqn:Hl; [done|]. exfalso.
    assert (c ∈ filter (λ move, move ∉ mines ai) (elements (all_moves ai ∖ moves_made ai)))
      as [Hmine Hrest%elem_of_elements]%list_elem_of_filter
      by (rewrite Hl; apply list_elem_of_here).
    apply (not_elem_of_empty (C:=gset Cell) c). rewrite <- Hempty. set_solver.
Qed.

(** C8 does not hold of the code: the choice is not random.  A fresh 2×2
    player has four cells to choose from, and [make_random_move], a function
    of the state alone, returns one of them at every call: some cell that may
    be chosen never is. *)
Theorem make_random_move_fixed_choice :
  size (candidates (init 2 2)) = 4%nat
  ∧ ∃ c, c ∈ candidates (init 2 2) ∧ make_random_move (init 2 2) ≠ Some c.
Proof.
  split; [vm_compute; reflexivity|].
  exists (0, 0).
  apply (bool_decide_eq_true_1
           ((0, 0) ∈ candidates (init 2 2) ∧ make_random_move (init 2 2) ≠ Some (0, 0))).
  vm_compute. reflexivity.
Qed.

(** C9: every call of [add_knowledge] returns with every cell that was in
    [safes] still in [safes] and every cell that was in [mines] still in
    [mines]. *)
Theorem known_sets_only_grow (e : Exec) (cell : Cell) (count : Z) :
  ∃ fuel e',
    add_knowledge fuel cell count e = Some e'
    ∧ safes (now e) ⊆ safes (now e')
    ∧ mines (now e) ⊆ mines (now e').
Proof.
  destruct (add_knowledge_returns cell count e) as (fuel & e' & Hrun).
  destruct (Hrun fuel (le_n _)) as [Ha _].
  exists fuel, e'. split; [exact Ha|].
  destruct (add_knowledge_grows _ _ _ _ _ Ha). by split.
Qed.

(** [all_moves] is set once, from the dimensions. *)
Lemma all_moves_kept fuel cell count e e' :
  add_knowledge fuel cell count e = Some e' →
  all_moves (now e) = calculate_all_moves (height (now e)) (width (now e)) →
  all_moves (now e') = calculate_all_moves (height (now e')) (width (now e')).
Proof.
  intros Ha Hall. destruct (add_knowledge_grows _ _ _ _ _ Ha). congruence.
Qed.

(** The laws hold of the two implementations. *)
Lemma insertion_order_lawful : lawful insertion_order.
Proof.
  split; simpl.
  - intros t. apply NoDup_remove_dups.
  - done.
  - intros c t d. rewrite !elem_of_remove_dups. case_decide as Hc.
    + split; [by right|]. by intros [->|?].
    + rewrite elem_of_app, list_elem_of_singleton. tauto.
  - intros c t d. rewrite !elem_of_remove_dups, list_elem_of_filter. tauto.
  - intros c d t. rewrite !list_filter_filter. apply list_filter_iff. tauto.
  - done.
  - done.
Qed.

Lemma canonical_order_lawful : lawful canonical_order.
Proof.
  split; simpl.
  - intros t. apply NoDup_elements.
  - apply elements_empty.
  - intros c t d. rewrite !elem_of_elements, elem_of_union, elem_of_singleton. tauto.
  - intros c t d.
    rewrite !elem_of_elements, elem_of_difference, elem_of_singleton. tauto.
  - intros c d t. apply set_eq. intros x.
    rewrite !elem_of_difference, !elem_of_singleton. tauto.
  - done.
  - done.
Qed.

(** A fold of steps that commute does not depend on the order of the list. *)
Lemma foldl_permutation {A B} (f : A → B → A) (l l' : list B) :
  (∀ a x y, f (f a x) y = f (f a y) x) →
  l ≡ₚ l' → ∀ a, foldl f a l = foldl f a l'.
Proof.
  intros Hcomm Hperm.
  induction Hperm as [|x l l' _ IH|x y l|l1 l2 l3 _ IH12 _ IH23]; intros a; simpl.
  - done.
  - apply IH.
  - by rewrite Hcomm.
  - by rewrite IH12.
Qed.

Section tables.
Context (H : HashTable) (Hlaw : lawful H).
Implicit Types (t so other : table H) (c d : Cell).

Lemma discards_elem (l : list Cell) t d :
  d ∈ t_iter H (foldl (λ result key, t_discard H key result) t l)
  ↔ d ∈ t_iter H t ∧ d ∉ l.
Proof.
  revert t. induction l as [|c l IH]; intros t; simpl.
  - split; [intros ?; split; [done|apply not_elem_of_nil]|by intros [? _]].
  - rewrite IH, (law_discard H Hlaw), not_elem_of_cons. tauto.
Qed.

Lemma adds_elem (l : list Cell) t d :
  d ∈ t_iter H (foldl (λ result key, t_add H key result) t l)
  ↔ d ∈ t_iter H t ∨ d ∈ l.
Proof.
  revert t. induction l as [|c l IH]; intros t; simpl.
  - split; [by left|]. intros [?|[]%elem_of_nil]. done.
  - rewrite IH, (law_add H Hlaw), elem_of_cons. tauto.
Qed.

(** [so.difference(other)] holds the keys of [so] that are not in [other]. *)
Lemma difference_on_elem so other d :
  d ∈ t_iter H (difference_on H so other)
  ↔ d ∈ t_iter H so ∧ d ∉ t_iter H other.
Proof.
  unfold difference_on. case_decide.
  - rewrite (law_settle H Hlaw), discards_elem, (law_copy H Hlaw). done.
  - rewrite adds_elem, (law_empty H Hlaw), list_elem_of_filter.
    split; [intros [[]%elem_of_nil|[? ?]]; done|]. intros [? ?]. by right.
Qed.

(** The order of [so.difference(other)] depends on [other] through its
    members only: the discards of the first branch commute, and the second
    branch only asks [other] whether it has a key. *)
Lemma difference_on_same_members so other1 other2 :
  same_members H other1 other2 →
  difference_on H so other1 = difference_on H so other2.
Proof.
  intros Hsame.
  assert (t_iter H other1 ≡ₚ t_iter H other2) as Hperm.
  { apply NoDup_Permutation; [apply (law_NoDup H Hlaw)..|exact Hsame]. }
  unfold difference_on, t_len. rewrite (Permutation_length Hperm).
  case_decide.
  - f_equal. apply foldl_permutation; [|exact Hperm].
    intros t c d. apply (law_discard_comm H Hlaw).
  - f_equal. apply list_filter_iff. intros c. by rewrite (Hsame c).
Qed.

Lemma make_random_move_on_elem (all_moves moves_made mines : table H) c :
  make_random_move_on H all_moves moves_made mines = Some c →
  c ∈ t_iter H all_moves ∧ (c ∉ t_iter H moves_made) ∧ (c ∉ t_iter H mines).
Proof.
  unfold make_random_move_on. intros Hc.
  apply head_Some_elem_of, list_elem_of_filter in Hc as [Hmine Hrest].
  apply difference_on_elem in Hrest as [? ?]. done.
Qed.

End tables.

(** C10: [make_random_move] takes nothing but the state, no random source,
    and its result does not depend on how the state was reached: for two
    players with the same dimensions, the same moves made and the same known
    mines, it returns the same cell, also when the sets [moves_made] and
    [mines] of the two were filled in different orders and so are iterated
    differently.  This holds whatever way the hash tables lay out their
    keys. *)
Theorem make_random_move_same_on_equal_states (H : HashTable) (height width : Z)
    (moves_made1 moves_made2 mines1 mines2 : table H) :
  lawful H →
  same_members H moves_made1 moves_made2 →
  same_members H mines1 mines2 →
  make_random_move_on H (calculate_all_moves_on H height width) moves_made1 mines1
  = make_random_move_on H (calculate_all_moves_on H height width) moves_made2 mines2.
Proof.
  intros Hlaw Hmoves Hmines. unfold make_random_move_on.
  rewrite (difference_on_same_members H Hlaw _ _ _ Hmoves).
  f_equal. apply list_filter_iff. intros c. by rewrite (Hmines c).
Qed.

(** Two players that probed (0,0) and (0,1) in opposite orders. *)
Lemma make_random_move_same_on_equal_states_witness :
  lawful insertion_order
  ∧ same_members insertion_order [(0, 0); (0, 1)] [(0, 1); (0, 0)]
  ∧ same_members insertion_order [] []
  ∧ make_random_move_on insertion_order (calculate_all_moves_on insertion_order 2 2)
      [(0, 0); (0, 1)] []
    = make_random_move_on insertion_order (calculate_all_moves_on insertion_order 2 2)
        [(0, 1); (0, 0)] [].
Proof.
  assert (same_members insertion_order [(0, 0); (0, 1)] [(0, 1); (0, 0)]) as Hmoves.
  { intros c.
    change (c ∈ remove_dups [(0, 0); (0, 1)] ↔ c ∈ remove_dups [(0, 1); (0, 0)]).
    rewrite !elem_of_remove_dups, !elem_of_cons. tauto. }
  assert (same_members insertion_order [] []) as Hmines by (intros c; reflexivity).
  split; [exact insertion_order_lawful|]. split; [exact Hmoves|]. split; [exact Hmines|].
  exact (make_random_move_same_on_equal_states insertion_order 2 2 _ _ _ _
           insertion_order_lawful Hmoves Hmines).
Defined.

(** The same does not hold of [make_safe_move], which iterates [self.safes]
    itself: two players with the same sets, filled in different orders, may
    get different cells. *)
Lemma make_safe_move_depends_on_history :
  lawful insertion_order
  ∧ same_members insertion_order [(0, 0); (0, 1)] [(0, 1); (0, 0)]
  ∧ make_safe_move_on insertion_order [(0, 0); (0, 1)] []
    ≠ make_safe_move_on insertion_order [(0, 1); (0, 0)] [].
Proof.
  split; [exact insertion_order_lawful|]. split.
  - intros c.
    change (c ∈ remove_dups [(0, 0); (0, 1)] ↔ c ∈ remove_dups [(0, 1); (0, 0)]).
    rewrite !elem_of_remove_dups, !elem_of_cons. tauto.
  - vm_compute. discriminate.
Qed.

(** [make_random_move] above is [make_random_move_on] with the tables in the
    order of [gset]. *)
Lemma make_random_move_canonical (ai : MinesweeperAI) :
  make_random_move ai
  = make_random_move_on canonical_order (all_moves ai) (moves_made ai) (mines ai).
Proof.
  unfold make_random_move, make_random_move_on.
  assert (difference_on canonical_order (all_moves ai) (moves_made ai)
          = all_moves ai ∖ moves_made ai) as ->.
  { apply set_eq. intros c.
    rewrite <- elem_of_elements.
    rewrite (difference_on_elem canonical_order canonical_order_lawful
               (all_moves ai) (moves_made ai) c).
    simpl. rewrite !elem_of_elements, elem_of_difference. done. }
  simpl. f_equal. apply list_filter_iff. intros c. by rewrite elem_of_elements.
Qed.

(** * Further properties of the code *)

Section grid.
Implicit Types (ai : MinesweeperAI) (c cell : Cell).

Lemma block_elem cell c :
  c ∈ block cell
  ↔ cell.1 - 1 ≤ c.1 ≤ cell.1 + 1 ∧ cell.2 - 1 ≤ c.2 ≤ cell.2 + 1.
Proof.
  unfold block, range. destruct c as [i j]. simpl.
  rewrite list_elem_of_bind. split.
  - intros (i' & (j' & Hp%list_elem_of_singleton & Hj%elem_of_seqZ)%list_elem_of_bind
            & Hi%elem_of_seqZ).
    simplify_eq. lia.
  - intros [Hi Hj]. exists i. split; [|apply elem_of_seqZ; lia].
    apply list_elem_of_bind. exists j. split; [apply list_elem_of_singleton; done|].
    apply elem_of_seqZ. lia.
Qed.

Lemma block_length cell : length (block cell) = 9%nat.
Proof.
  unfold block, range.
  replace (cell.1 + 2 - (cell.1 - 1)) with 3 by lia.
  replace (cell.2 + 2 - (cell.2 - 1)) with 3 by lia.
  reflexivity.
Qed.

(** X1. [get_unknown_neighbours] returns the cells within one row and one
    column of the cell that are on the board and not known safe: known mines
    are kept, and so is the cell itself when it is not known safe.  At most
    nine cells are returned. *)
Theorem get_unknown_neighbours_spec cell ai :
  (∀ c, c ∈ get_unknown_neighbours cell ai
        ↔ (cell.1 - 1 ≤ c.1 ≤ cell.1 + 1 ∧ cell.2 - 1 ≤ c.2 ≤ cell.2 + 1)
          ∧ (0 ≤ c.1 < height ai ∧ 0 ≤ c.2 < width ai)
          ∧ c ∉ safes ai)
  ∧ (size (get_unknown_neighbours cell ai) ≤ 9)%nat.
Proof.
  split.
  - intros c. by rewrite get_unknown_neighbours_elem, block_elem.
  - rewrite <- (block_length cell), <- (size_list_to_set (C:=gset Cell) (block cell))
      by apply block_NoDup.
    apply subseteq_size. intros c [Hc _]%get_unknown_neighbours_elem.
    by apply elem_of_list_to_set.
Qed.

Lemma nearby_mines_count (g : Minesweeper.t) cell :
  Minesweeper.nearby_mines g cell
  = Z.of_nat (size (filter (λ p, Minesweeper.in_bounds g p.1 p.2 = true
                                 ∧ Minesweeper.board_at g p.1 p.2 = true)
                           (neighbours cell)))
  ∧ 0 ≤ Minesweeper.nearby_mines g cell ≤ 8.
Proof.
  set (R := λ p : Cell, p ≠ cell ∧ Minesweeper.in_bounds g p.1 p.2 = true
                        ∧ Minesweeper.board_at g p.1 p.2 = true).
  assert (Minesweeper.nearby_mines g cell = Z.of_nat (length (filter R (block cell))))
    as Hcount.
  { rewrite nearby_mines_flat, (count_filter R); [lia| |].
    - intros n p (Hne & Hin & Hb). rewrite decide_False, Hin, Hb by done. done.
    - intros n p HR. case_decide; [done|].
      destruct (Minesweeper.in_bounds g p.1 p.2) eqn:Hin; [|done].
      destruct (Minesweeper.board_at g p.1 p.2) eqn:Hb; [|done].
      exfalso. apply HR. done. }
  split.
  - rewrite Hcount. f_equal.
    rewrite <- (size_list_to_set (C:=gset Cell)) by apply NoDup_filter, block_NoDup.
    f_equal. apply set_eq. intros p.
    unfold neighbours, R.
    rewrite elem_of_list_to_set, list_elem_of_filter, elem_of_filter,
      elem_of_difference, elem_of_list_to_set, elem_of_singleton.
    tauto.
  - rewrite Hcount.
    assert (cell ∈ block cell) as Hcell by (apply block_elem; lia).
    pose proof (length_filter_lt R (block cell) cell Hcell) as Hlt.
    rewrite block_length in Hlt.
    assert (¬ R cell) as HR by (unfold R; tauto).
    specialize (Hlt HR). lia.
Qed.

(** X2. [nearby_mines] is the number of cells on the board, within one row
    and one column of the cell and other than the cell, where the board has a
    mine; it lies between 0 and 8. *)
Theorem nearby_mines_spec (g : Minesweeper.t) cell :
  Minesweeper.nearby_mines g cell
  = Z.of_nat (size (filter (λ p, Minesweeper.in_bounds g p.1 p.2 = true
                                 ∧ Minesweeper.board_at g p.1 p.2 = true)
                           (neighbours cell)))
  ∧ 0 ≤ Minesweeper.nearby_mines g cell ≤ 8.
Proof. apply nearby_mines_count. Qed.

End grid.

Section moves.
Implicit Types (ai : MinesweeperAI) (c cell : Cell).

Lemma pairs_elem (rows cols : list Z) c :
  c ∈ (i ← rows; j ← cols; [(i, j)]) ↔ c.1 ∈ rows ∧ c.2 ∈ cols.
Proof.
  destruct c as [i j]. simpl. rewrite list_elem_of_bind. split.
  - intros (i' & (j' & Hp%list_elem_of_singleton & Hj)%list_elem_of_bind & Hi).
    by simplify_eq.
  - intros [Hi Hj]. exists i. split; [|done].
    apply list_elem_of_bind. exists j. split; [by apply list_elem_of_singleton|done].
Qed.

Lemma pairs_NoDup (rows cols : list Z) :
  NoDup rows → NoDup cols → NoDup (i ← rows; j ← cols; [(i, j)]).
Proof.
  intros Hrows Hcols. apply NoDup_bind; [| |done].
  - intros i1 i2 p _ _ (j1 & Hp1 & _)%list_elem_of_bind (j2 & Hp2 & _)%list_elem_of_bind.
    apply list_elem_of_singleton in Hp1, Hp2. congruence.
  - intros i _. apply NoDup_bind; [| |done].
    + intros j1 j2 p _ _ Hp1%list_elem_of_singleton Hp2%list_elem_of_singleton.
      congruence.
    + intros j _. apply NoDup_singleton.
Qed.

Lemma pairs_length (rows cols : list Z) :
  length (i ← rows; j ← cols; [(i, j)]) = (length rows * length cols)%nat.
Proof.
  induction rows as [|i rows IH]; [done|].
  rewrite bind_cons, length_app, IH. simpl. f_equal.
  clear IH. induction cols as [|j cols IH]; [done|].
  rewrite bind_cons, length_app, IH. done.
Qed.

Lemma calculate_all_moves_pairs (h w : Z) :
  calculate_all_moves h w = list_to_set (i ← range 0 h; j ← range 0 w; [(i, j)]).
Proof.
  unfold calculate_all_moves.
  rewrite (foldl_nested (λ _, false) (λ all_moves i j, {[(i, j)]} ∪ all_moves)).
  apply set_eq. intros c.
  rewrite (collect_elem (λ _, True)), elem_of_list_to_set.
  - split; [intros [[]%not_elem_of_empty|[? _]]; done|]. intros ?. by right.
  - intros acc [i j] _. done.
  - intros acc p []. done.
Qed.

Lemma calculate_all_moves_grid (h w : Z) :
  (∀ c, c ∈ calculate_all_moves h w ↔ 0 ≤ c.1 < h ∧ 0 ≤ c.2 < w)
  ∧ size (calculate_all_moves h w) = (Z.to_nat h * Z.to_nat w)%nat.
Proof.
  rewrite calculate_all_moves_pairs. split.
  - intros c. rewrite elem_of_list_to_set, pairs_elem. unfold range.
    rewrite !elem_of_seqZ. lia.
  - rewrite size_list_to_set by (apply pairs_NoDup; apply NoDup_seqZ).
    rewrite pairs_length. unfold range. rewrite !length_seqZ.
    by rewrite !Z.sub_0_r.
Qed.

(** X3. [calculate_all_moves] is the set of the cells of the board: (i, j) is
    in it exactly when [0 ≤ i < height] and [0 ≤ j < width], and it has
    [height × width] cells (none when a dimension is not positive). *)
Theorem calculate_all_moves_spec (h w : Z) :
  (∀ c, c ∈ calculate_all_moves h w ↔ 0 ≤ c.1 < h ∧ 0 ≤ c.2 < w)
  ∧ size (calculate_all_moves h w) = (Z.to_nat h * Z.to_nat w)%nat.
Proof. apply calculate_all_moves_grid. Qed.

(** X4. [make_safe_move] returns a cell that is known safe and not yet
    chosen, and returns [None] exactly when every known safe cell has been
    chosen; it returns no new state. *)
Theorem make_safe_move_spec ai :
  (∀ c, make_safe_move ai = Some c → c ∈ safes ai ∧ c ∉ moves_made ai)
  ∧ (make_safe_move ai = None ↔ safes ai ⊆ moves_made ai).
Proof.
  unfold make_safe_move. split.
  - intros c Hc.
    apply head_Some_elem_of, list_elem_of_filter in Hc as [Hnew Hsafe].
    by apply elem_of_elements in Hsafe.
  - rewrite head_None. split.
    + intros Hnil c Hc.
      destruct (decide (c ∈ moves_made ai)) as [|Hnew]; [done|]. exfalso.
      apply (filter_nil_not_elem_of _ _ c Hnil Hnew).
      by apply elem_of_elements.
    + intros Hsub.
      destruct (filter _ _) as [|c l] eqn:Hl; [done|]. exfalso.
      assert (c ∈ filter (λ safe, safe ∉ moves_made ai) (elements (safes ai)))
        as [Hnew Hsafe%elem_of_elements]%list_elem_of_filter
        by (rewrite Hl; apply list_elem_of_here).
      by apply Hnew, Hsub.
Qed.

(** X5. A sentence never reports a cell both as a known mine and as a known
    safe: [known_mines] and [known_safes] are disjoint, whatever the count. *)
Theorem known_mines_safes_disjoint (s : Sentence.t) :
  Sentence.known_mines s ∩ Sentence.known_safes s = ∅.
Proof.
  apply set_eq. intros c. split; [|by intros []%not_elem_of_empty].
  intros [Hm Hs]%elem_of_intersection. exfalso.
  unfold Sentence.known_mines in Hm. unfold Sentence.known_safes in Hs.
  destruct (decide (Sentence.count s = Sentence.len s)) as [Hlen|];
    [|exact (not_elem_of_empty (C:=gset Cell) c Hm)].
  destruct (decide (Sentence.count s = 0)) as [Hzero|];
    [|exact (not_elem_of_empty (C:=gset Cell) c Hs)].
  unfold Sentence.len in Hlen.
  assert (size (Sentence.cells s) = 0%nat) as Hsize by lia.
  apply size_empty_inv in Hsize.
  apply (not_elem_of_empty (C:=gset Cell) c). by apply Hsize.
Qed.

End moves.

Section cleaning.
Implicit Types (ai : MinesweeperAI) (e : Exec) (ref : nat).

(** Popping, from the last to the first, the positions of the elements that
    satisfy [P] leaves the elements that do not, in their order. *)
Lemma pop_marked {A} (P : A → Prop) `{!∀ x, Decision (P x)} (l k : list A) :
  foldl (λ l i, delete i l) (l ++ k)
        (reverse (filter (λ p, P p.2) (zip (seq 0 (length l)) l)).*1)
  = filter (λ x, ¬ P x) l ++ k.
Proof.
  revert k. induction l as [|x l IH] using rev_ind; intros k; [done|].
  rewrite length_app. simpl. rewrite Nat.add_1_r, seq_S. simpl.
  rewrite zip_with_app by (by rewrite length_seq).
  rewrite filter_app, fmap_app, reverse_app, filter_app. simpl.
  rewrite <- (assoc_L (++)). simpl.
  destruct (decide (P x)) as [HP|HP].
  - rewrite (filter_cons_True (λ p, P p.2)) by done.
    rewrite filter_cons_False by tauto.
    simpl. rewrite delete_middle, IH, filter_nil. by rewrite (right_id_L [] (++)).
  - rewrite (filter_cons_False (λ p, P p.2)) by done.
    rewrite filter_cons_True by done.
    simpl. rewrite IH, filter_nil. by rewrite <- (assoc_L (++)).
Qed.

Lemma pops_now (l : list nat) e :
  now (foldl (λ e i, update (set_knowledge (delete i)) e) e l)
  = set_knowledge (λ k, foldl (λ k i, delete i k) k l) (now e).
Proof.
  revert e. induction l as [|i l IH]; intros e; simpl.
  - by destruct (now e).
  - by rewrite IH.
Qed.

Lemma clean_up_now e :
  now (clean_up_empty_knowledge e)
  = set_knowledge (filter (λ ref, Sentence.len (deref (now e) ref) ≠ 0)) (now e).
Proof.
  unfold clean_up_empty_knowledge. rewrite pops_now.
  pose proof (pop_marked (λ ref, Sentence.len (deref (now e) ref) = 0)
                (knowledge (now e)) []) as Hpop.
  rewrite !(right_id_L [] (++)) in Hpop.
  unfold set_knowledge. by rewrite Hpop.
Qed.

(** X6. [clean_up_empty_knowledge] removes from the list exactly the
    sentences that have no cells, keeps the others in their order, and
    changes nothing else of the state. *)
Theorem clean_up_empty_knowledge_spec e :
  now (clean_up_empty_knowledge e)
  = set_knowledge (filter (λ ref, Sentence.len (deref (now e) ref) ≠ 0)) (now e).
Proof. apply clean_up_now. Qed.

End cleaning.

Section broadcasting.
Implicit Types (ai : MinesweeperAI) (e : Exec) (ref : nat) (c cell : Cell).

Lemma broadcast_now (f : Sentence.t → Sentence.t) (l : list nat) e :
  now (foldl (λ e sentence, update (on_sentence sentence f) e) e l)
  = foldl (λ ai sentence, on_sentence sentence f ai) (now e) l.
Proof.
  revert e. induction l as [|r l IH]; intros e; simpl; [done|]. by rewrite IH.
Qed.

Lemma mark_mine_now_spec c e : now (mark_mine c e) = mark_mine_now c (now e).
Proof. unfold mark_mine, mark_mine_now. by rewrite broadcast_now. Qed.

Lemma mark_safe_now_spec c e : now (mark_safe c e) = mark_safe_now c (now e).
Proof. unfold mark_safe, mark_safe_now. by rewrite broadcast_now. Qed.

(** The state after a broadcast of an idempotent update. *)
Lemma broadcast_state (f : Sentence.t → Sentence.t) (l : list nat) ai :
  (∀ x, f (f x) = f x) →
  set_store (λ _, store ai) (foldl (λ ai sentence, on_sentence sentence f ai) ai l) = ai
  ∧ ∀ ref, store (foldl (λ ai sentence, on_sentence sentence f ai) ai l) !! ref
           = if decide (ref ∈ l) then f <$> store ai !! ref else store ai !! ref.
Proof.
  intros Hf. revert ai. induction l as [|r l IH]; intros ai; cbn [foldl].
  - split; [by destruct ai|]. intros ref. rewrite decide_False; [done|].
    apply not_elem_of_nil.
  - destruct (IH (on_sentence r f ai)) as [Hframe Hstore]. split.
    + transitivity (set_store (λ _, store ai) (on_sentence r f ai));
        [exact (f_equal (set_store (λ _, store ai)) Hframe)|by destruct ai].
    + intros ref. rewrite Hstore. cbn [on_sentence set_store store].
      destruct (decide (r = ref)) as [->|Hne].
      * rewrite list_lookup_alter_eq. rewrite (decide_True (P := ref ∈ ref :: l));
          [|apply list_elem_of_here].
        case_decide; [|done].
        destruct (store ai !! ref); simpl; [|done]. by rewrite Hf.
      * rewrite list_lookup_alter_ne by done.
        destruct (decide (ref ∈ l)) as [Hin|Hin].
        -- rewrite decide_True; [done|]. by apply list_elem_of_further.
        -- rewrite decide_False; [done|].
           intros [?|?]%elem_of_cons; [congruence|done].
Qed.

Lemma sentence_mark_mine_twice c (x : Sentence.t) :
  Sentence.mark_mine c (Sentence.mark_mine c x) = Sentence.mark_mine c x.
Proof.
  unfold Sentence.mark_mine at 1. rewrite decide_False; [done|].
  rewrite mark_mine_cells. set_solver.
Qed.

Lemma sentence_mark_safe_twice c (x : Sentence.t) :
  Sentence.mark_safe c (Sentence.mark_safe c x) = Sentence.mark_safe c x.
Proof.
  unfold Sentence.mark_safe at 1. rewrite decide_False; [done|].
  rewrite mark_safe_cells. set_solver.
Qed.

Lemma mark_mine_sets c e :
  mines (now (mark_mine c e)) = {[c]} ∪ mines (now e)
  ∧ safes (now (mark_mine c e)) = safes (now e)
  ∧ moves_made (now (mark_mine c e)) = moves_made (now e).
Proof.
  rewrite mark_mine_now_spec. unfold mark_mine_now.
  destruct (broadcast_state (Sentence.mark_mine c) (knowledge (now e))
              (set_mines (λ m, {[c]} ∪ m) (now e)) (sentence_mark_mine_twice c))
    as [Hframe _].
  split_and!; [exact (f_equal mines Hframe)|exact (f_equal safes Hframe)
               |exact (f_equal moves_made Hframe)].
Qed.

Lemma mark_safe_sets c e :
  safes (now (mark_safe c e)) = {[c]} ∪ safes (now e)
  ∧ mines (now (mark_safe c e)) = mines (now e)
  ∧ moves_made (now (mark_safe c e)) = moves_made (now e).
Proof.
  rewrite mark_safe_now_spec. unfold mark_safe_now.
  destruct (broadcast_state (Sentence.mark_safe c) (knowledge (now e))
              (set_safes (λ m, {[c]} ∪ m) (now e)) (sentence_mark_safe_twice c))
    as [Hframe _].
  split_and!; [exact (f_equal safes Hframe)|exact (f_equal mines Hframe)
               |exact (f_equal moves_made Hframe)].
Qed.

(** Marking [c] takes nothing but [c] out of a sentence. *)
Lemma mark_mine_keeps c e ref :
  Sentence.cells (deref (now e) ref) ∖ {[c]}
  ⊆ Sentence.cells (deref (now (mark_mine c e)) ref).
Proof.
  rewrite mark_mine_now_spec. unfold mark_mine_now.
  destruct (broadcast_state (Sentence.mark_mine c) (knowledge (now e))
              (set_mines (λ m, {[c]} ∪ m) (now e)) (sentence_mark_mine_twice c))
    as [_ Hstore].
  unfold deref. rewrite Hstore. simpl.
  destruct (store (now e) !! ref) as [x|]; simpl.
  - case_decide; simpl; [by rewrite mark_mine_cells|].
    intros d [Hd _]%elem_of_difference. exact Hd.
  - intros d [[]%not_elem_of_empty _]%elem_of_difference.
Qed.

(** X7. [MinesweeperAI.mark_mine] adds the cell to [mines], takes it out of
    every listed sentence that has it, lowering that sentence's count by one,
    and leaves everything else as it was: the other sets, the list, the
    sentences that are not listed or do not have the cell. *)
Theorem mark_mine_effect c e :
  let ai := now e in
  let ai' := now (mark_mine c e) in
  mines ai' = {[c]} ∪ mines ai
  ∧ safes ai' = safes ai
  ∧ moves_made ai' = moves_made ai
  ∧ knowledge ai' = knowledge ai
  ∧ ∀ ref, deref ai' ref
           = if decide (ref ∈ knowledge ai ∧ c ∈ Sentence.cells (deref ai ref))
             then Sentence.Build (Sentence.cells (deref ai ref) ∖ {[c]})
                                 (Sentence.count (deref ai ref) - 1)
             else deref ai ref.
Proof.
  simpl. rewrite mark_mine_now_spec. unfold mark_mine_now.
  destruct (broadcast_state (Sentence.mark_mine c) (knowledge (now e))
              (set_mines (λ m, {[c]} ∪ m) (now e)) (sentence_mark_mine_twice c))
    as [Hframe Hstore].
  set (ai' := foldl _ _ _) in *.
  assert (mines ai' = {[c]} ∪ mines (now e) ∧ safes ai' = safes (now e)
          ∧ moves_made ai' = moves_made (now e) ∧ knowledge ai' = knowledge (now e))
    as (-> & -> & -> & ->).
  { split_and!; [exact (f_equal mines Hframe)|exact (f_equal safes Hframe)
                 |exact (f_equal moves_made Hframe)|exact (f_equal knowledge Hframe)]. }
  repeat (split; [done|]).
  intros ref. unfold deref. rewrite Hstore. simpl.
  destruct (decide (ref ∈ knowledge (now e))) as [Hin|Hin].
  - destruct (store (now e) !! ref) as [x|]; simpl.
    + unfold Sentence.mark_mine.
      destruct (decide (c ∈ Sentence.cells x)).
      * rewrite decide_True; done.
      * rewrite decide_False; [done|tauto].
    + rewrite decide_False; [done|]. intros [_ []%not_elem_of_empty].
  - rewrite decide_False; [done|tauto].
Qed.

(** X8. [MinesweeperAI.mark_safe] adds the cell to [safes], takes it out of
    every listed sentence that has it, keeping that sentence's count, and
    leaves everything else as it was. *)
Theorem mark_safe_effect c e :
  let ai := now e in
  let ai' := now (mark_safe c e) in
  safes ai' = {[c]} ∪ safes ai
  ∧ mines ai' = mines ai
  ∧ moves_made ai' = moves_made ai
  ∧ knowledge ai' = knowledge ai
  ∧ ∀ ref, deref ai' ref
           = if decide (ref ∈ knowledge ai ∧ c ∈ Sentence.cells (deref ai ref))
             then Sentence.Build (Sentence.cells (deref ai ref) ∖ {[c]})
                                 (Sentence.count (deref ai ref))
             else deref ai ref.
Proof.
  simpl. rewrite mark_safe_now_spec. unfold mark_safe_now.
  destruct (broadcast_state (Sentence.mark_safe c) (knowledge (now e))
              (set_safes (λ m, {[c]} ∪ m) (now e)) (sentence_mark_safe_twice c))
    as [Hframe Hstore].
  set (ai' := foldl _ _ _) in *.
  assert (safes ai' = {[c]} ∪ safes (now e) ∧ mines ai' = mines (now e)
          ∧ moves_made ai' = moves_made (now e) ∧ knowledge ai' = knowledge (now e))
    as (-> & -> & -> & ->).
  { split_and!; [exact (f_equal safes Hframe)|exact (f_equal mines Hframe)
                 |exact (f_equal moves_made Hframe)|exact (f_equal knowledge Hframe)]. }
  repeat (split; [done|]).
  intros ref. unfold deref. rewrite Hstore. simpl.
  destruct (decide (ref ∈ knowledge (now e))) as [Hin|Hin].
  - destruct (store (now e) !! ref) as [x|]; simpl.
    + unfold Sentence.mark_safe.
      destruct (decide (c ∈ Sentence.cells x)).
      * rewrite decide_True; done.
      * rewrite decide_False; [done|tauto].
    + rewrite decide_False; [done|]. intros [_ []%not_elem_of_empty].
  - rewrite decide_False; [done|tauto].
Qed.

End broadcasting.

Section iteration_order.
Implicit Types (ai : MinesweeperAI) (e : Exec) (ref : nat) (c cell : Cell).

Lemma broadcast_eq (f : Sentence.t → Sentence.t) (l : list nat) ai :
  (∀ x, f (f x) = f x) →
  foldl (λ ai sentence, on_sentence sentence f ai) ai l
  = set_store (imap (λ ref x, if decide (ref ∈ l) then f x else x)) ai.
Proof.
  intros Hf. destruct (broadcast_state f l ai Hf) as [Hframe Hstore].
  set (ai' := foldl _ _ _) in *.
  transitivity (set_store (λ _, store ai') (set_store (λ _, store ai) ai'));
    [by destruct ai'|].
  rewrite Hframe. unfold set_store. f_equal.
  apply list_eq. intros ref. rewrite Hstore, list_lookup_imap.
  destruct (store ai !! ref); simpl; by case_decide.
Qed.

Lemma sentence_mark_mine_comm c1 c2 (x : Sentence.t) :
  Sentence.mark_mine c1 (Sentence.mark_mine c2 x)
  = Sentence.mark_mine c2 (Sentence.mark_mine c1 x).
Proof.
  destruct (decide (c1 = c2)) as [->|Hne]; [done|].
  destruct x as [cells count]. unfold Sentence.mark_mine. simpl.
  destruct (decide (c2 ∈ cells)) as [H2|H2], (decide (c1 ∈ cells)) as [H1|H1]; simpl.
  - rewrite !decide_True by set_solver. f_equal; set_solver.
  - rewrite decide_False by set_solver. by rewrite decide_True.
  - rewrite decide_True by done. by rewrite decide_False by set_solver.
  - by rewrite !decide_False.
Qed.

Lemma mark_mine_now_comm c1 c2 ai :
  mark_mine_now c1 (mark_mine_now c2 ai) = mark_mine_now c2 (mark_mine_now c1 ai).
Proof.
  unfold mark_mine_now.
  rewrite !broadcast_eq by apply sentence_mark_mine_twice.
  unfold set_store, set_mines. simpl. f_equal.
  - by rewrite !(assoc_L (∪)), (comm_L (∪) {[c1]}).
  - apply list_eq. intros ref. rewrite !list_lookup_imap.
    destruct (store ai !! ref) as [x|]; simpl; [|done].
    case_decide; [|done]. by rewrite sentence_mark_mine_comm.
Qed.

Lemma mark_mines_now (l : list Cell) e :
  now (foldl (λ e mine, mark_mine mine e) e l)
  = foldl (λ ai mine, mark_mine_now mine ai) (now e) l.
Proof.
  revert e. induction l as [|c l IH]; intros e; simpl; [done|].
  by rewrite IH, mark_mine_now_spec.
Qed.

(** X9. The state reached by [for mine in known_mines: self.mark_mine(mine)]
    does not depend on the order in which the set is iterated: marking the
    same cells in another order gives the same state. *)
Theorem mark_mines_any_order (l l' : list Cell) e :
  l ≡ₚ l' →
  now (foldl (λ e mine, mark_mine mine e) e l)
  = now (foldl (λ e mine, mark_mine mine e) e l').
Proof.
  intros Hperm. rewrite !mark_mines_now.
  apply foldl_permutation; [|done].
  intros ai c1 c2. apply mark_mine_now_comm.
Qed.

(** Two mines marked in either order, on the state that scenario B reaches
    after its first observation. *)
Lemma mark_mines_any_order_witness :
  [(0, 1); (1, 1)] ≡ₚ [(1, 1); (0, 1)]
  ∧ now (foldl (λ e mine, mark_mine mine e)
           (prepared (0, 0) 1 (start (init 2 2))) [(0, 1); (1, 1)])
    = now (foldl (λ e mine, mark_mine mine e)
             (prepared (0, 0) 1 (start (init 2 2))) [(1, 1); (0, 1)]).
Proof.
  split; [apply perm_swap|].
  apply mark_mines_any_order. apply perm_swap.
Defined.

End iteration_order.

Section tidiness.
Implicit Types (ai : MinesweeperAI) (e : Exec) (ref : nat) (c cell : Cell).

Lemma evolves_store_length ai ai' :
  evolves ai ai' → length (store ai') = length (store ai).
Proof. intros Hev. apply (Forall2_length _ _ _ (ev_store _ _ Hev)). Qed.

Lemma tidy_mark_mine c e : tidy (now e) → tidy (now (mark_mine c e)).
Proof.
  intros Ht ref Hin.
  rewrite mark_mine_knowledge in Hin. destruct (Ht ref Hin) as [Hlive Hcells].
  split; [by rewrite (evolves_store_length _ _ (mark_mine_evolves c e))|].
  intros d Hd.
  destruct (mark_mine_sets c e) as (-> & -> & _).
  assert (d ≠ c) as Hne.
  { intros ->. by apply (mark_mine_removes c e ref Hin). }
  apply (evolves_deref _ _ ref (mark_mine_evolves c e)) in Hd.
  destruct (Hcells d Hd) as [Hm Hs]. split; [|done].
  intros [->%elem_of_singleton|?]%elem_of_union; done.
Qed.

Lemma tidy_mark_safe c e : tidy (now e) → tidy (now (mark_safe c e)).
Proof.
  intros Ht ref Hin.
  rewrite mark_safe_knowledge in Hin. destruct (Ht ref Hin) as [Hlive Hcells].
  split; [by rewrite (evolves_store_length _ _ (mark_safe_evolves c e))|].
  intros d Hd.
  destruct (mark_safe_sets c e) as (-> & -> & _).
  assert (d ≠ c) as Hne.
  { intros ->. by apply (mark_safe_removes c e ref Hin). }
  apply (evolves_deref _ _ ref (mark_safe_evolves c e)) in Hd.
  destruct (Hcells d Hd) as [Hm Hs]. split; [done|].
  intros [->%elem_of_singleton|?]%elem_of_union; done.
Qed.

Lemma tidy_mark_mines (l : list Cell) e :
  tidy (now e) → tidy (now (foldl (λ e mine, mark_mine mine e) e l)).
Proof.
  revert e. induction l as [|c l IH]; intros e Ht; simpl; [done|].
  by apply IH, tidy_mark_mine.
Qed.

Lemma tidy_mark_safes (l : list Cell) e :
  tidy (now e) → tidy (now (foldl (λ e safe, mark_safe safe e) e l)).
Proof.
  revert e. induction l as [|c l IH]; intros e Ht; simpl; [done|].
  by apply IH, tidy_mark_safe.
Qed.

Lemma clean_up_listed e ref :
  ref ∈ knowledge (now (clean_up_empty_knowledge e))
  ↔ ref ∈ knowledge (now e) ∧ Sentence.len (deref (now e) ref) ≠ 0.
Proof.
  rewrite clean_up_now. simpl. rewrite list_elem_of_filter. tauto.
Qed.

Lemma clean_up_deref e ref :
  deref (now (clean_up_empty_knowledge e)) ref = deref (now e) ref.
Proof. unfold deref. by rewrite clean_up_store. Qed.

Lemma tidy_clean_up e : tidy (now e) → tidy (now (clean_up_empty_knowledge e)).
Proof.
  intros Ht ref [Hin _]%clean_up_listed.
  destruct (Ht ref Hin) as [Hlive Hcells].
  split; [by rewrite clean_up_store|].
  intros d Hd. rewrite clean_up_deref in Hd. rewrite clean_up_now. simpl.
  by apply Hcells.
Qed.

Lemma tidy_discharge_pass e : tidy (now e) → tidy (now (discharge_pass e).1).
Proof.
  intros Ht. unfold discharge_pass. cbn [fst snd].
  by apply tidy_mark_safes, tidy_mark_mines, tidy_clean_up.
Qed.

Lemma tidy_discharge_loop fuel e e' :
  discharge_loop fuel e = Some e' → tidy (now e) → tidy (now e').
Proof.
  revert e. induction fuel as [|fuel IH]; intros e; [done|].
  cbn [discharge_loop]. intros Hloop Ht.
  pose proof (tidy_discharge_pass e Ht) as Hpass.
  destruct (discharge_pass e) as [e1 []]; simpl in *.
  - by eapply IH.
  - by simplify_eq.
Qed.

Lemma tidy_subtract ref (new : Sentence.t) e :
  tidy (now e) → tidy (now (update (on_sentence ref (subtract new)) e)).
Proof.
  intros Ht r Hin. simpl in *. destruct (Ht r Hin) as [Hlive Hcells].
  split; [by rewrite length_alter|].
  intros d Hd.
  apply (evolves_deref _ _ r (subtract_evolves ref new (now e))) in Hd.
  by apply Hcells.
Qed.

Lemma tidy_resolve_loop (reason : nat → Exec → option Exec) new_knowledge :
  (∀ ref e e', reason ref e = Some e' → tidy (now e) → tidy (now e')) →
  ∀ fuel i e e',
    resolve_loop fuel reason new_knowledge i e = Some e' →
    tidy (now e) → tidy (now e').
Proof.
  intros Hrec. induction fuel as [|fuel IH]; intros i e e'; [done|].
  cbn [resolve_loop]. intros Hloop Ht.
  destruct (knowledge (now e) !! i) as [existing|]; [|by simplify_eq].
  case_decide.
  { eapply IH; [done|]. by apply tidy_clean_up. }
  case_decide as Hsuper; [|by eapply IH].
  destruct (reason existing _) as [e2|] eqn:Hr; [|done]. simpl in Hloop.
  eapply IH; [done|]. eapply Hrec; [done|]. by apply tidy_subtract.
Qed.

Lemma tidy_reason fuel :
  ∀ new_knowledge e e',
    reason_about_new_knowledge fuel new_knowledge e = Some e' →
    tidy (now e) → tidy (now e').
Proof.
  induction fuel as [|fuel IH]; intros new e e'; [done|].
  cbn [reason_about_new_knowledge]. intros Hr Ht.
  case_decide; [by simplify_eq|].
  destruct (discharge_loop fuel e) as [e1|] eqn:Hd; [|done]. simpl in Hr.
  eapply tidy_resolve_loop; [|exact Hr|by eapply tidy_discharge_loop].
  intros ref e2 e3. apply IH.
Qed.

Lemma mark_mines_sets (l : list Cell) e :
  mines (now (foldl (λ e mine, mark_mine mine e) e l)) = list_to_set l ∪ mines (now e)
  ∧ safes (now (foldl (λ e mine, mark_mine mine e) e l)) = safes (now e).
Proof.
  revert e. induction l as [|c l IH]; intros e; simpl.
  - split; [|done]. by rewrite (left_id_L ∅ (∪)).
  - destruct (IH (mark_mine c e)) as [-> ->].
    destruct (mark_mine_sets c e) as (-> & -> & _). split; [|done].
    rewrite !(assoc_L (∪)). f_equal. apply (comm_L (∪)).
Qed.

(** A state whose sentences mention known mines becomes tidy once these mines
    are marked again. *)
Lemma tidy_after_marks (l : list Cell) e :
  (∀ c, c ∈ l → c ∈ mines (now e)) →
  (∀ ref, ref ∈ knowledge (now e) →
     (ref < length (store (now e)))%nat
     ∧ (∀ c, c ∈ Sentence.cells (deref (now e) ref) →
             (c ∉ safes (now e)) ∧ (c ∈ mines (now e) → c ∈ l))) →
  tidy (now (foldl (λ e mine, mark_mine mine e) e l)).
Proof.
  intros Hl Hpre ref Hin.
  rewrite mark_mines_knowledge in Hin. destruct (Hpre ref Hin) as [Hlive Hcells].
  split; [by rewrite (evolves_store_length _ _ (mark_mines_evolves l e))|].
  intros d Hd.
  destruct (mark_mines_sets l e) as [-> ->].
  pose proof (evolves_deref _ _ ref (mark_mines_evolves l e) d Hd) as Hd0.
  destruct (Hcells d Hd0) as [Hsafe Hmine]. split; [|done].
  intros Hdm.
  assert (d ∈ l) as Hdl.
  { apply elem_of_union in Hdm as [Hdl%elem_of_list_to_set|Hdm]; [done|by apply Hmine]. }
  by apply (mark_mines_remove l d e ref Hdl Hin).
Qed.

Lemma tidy_prepared cell count e : tidy (now e) → tidy (now (prepared cell count e)).
Proof.
  intros Ht. unfold prepared.
  set (e1 := update (set_moves_made (λ m, {[cell]} ∪ m)) e).
  set (e2 := mark_safe cell e1).
  set (e3 := update (set_store _) e2).
  set (e4 := update (set_knowledge _) e3).
  assert (tidy (now e2)) as Ht2 by (by apply tidy_mark_safe).
  apply tidy_after_marks.
  - intros c [_ Hc]%elem_of_elements%elem_of_intersection. exact Hc.
  - intros ref Hin. simpl in Hin.
    apply elem_of_app in Hin as [Hin|Heq%list_elem_of_singleton].
    2: subst ref.
    + destruct (Ht2 ref Hin) as [Hlive Hcells].
      split; [simpl; rewrite length_app; simpl; lia|].
      intros c Hc. simpl.
      assert (deref (now e4) ref = deref (now e2) ref) as Hderef.
      { unfold deref. simpl. by rewrite lookup_app_l. }
      rewrite Hderef in Hc. destruct (Hcells c Hc) as [Hm Hs]. done.
    + split; [simpl; rewrite length_app; simpl; lia|].
      intros c Hc. simpl. split.
      * unfold deref in Hc. simpl in Hc.
        rewrite lookup_app_r, Nat.sub_diag in Hc by lia. simpl in Hc.
        by apply get_unknown_neighbours_elem in Hc as (_ & _ & Hs).
      * intros Hm. apply elem_of_elements, elem_of_intersection. done.
Qed.

Lemma tidy_add_knowledge fuel cell count e e' :
  add_knowledge fuel cell count e = Some e' → tidy (now e) → tidy (now e').
Proof.
  rewrite add_knowledge_prepared. intros Hr Ht.
  eapply tidy_reason; [exact Hr|]. by apply tidy_prepared.
Qed.

Lemma tidy_observe_all fuel observations e e' :
  observe_all fuel observations e = Some e' → tidy (now e) → tidy (now e').
Proof.
  revert e. induction observations as [|[cell count] rest IH]; intros e; simpl.
  - intros. by simplify_eq.
  - destruct (add_knowledge fuel cell count e) as [e1|] eqn:Ha; [|done]. simpl.
    intros Hrest Ht. apply (IH e1 Hrest). by eapply tidy_add_knowledge.
Qed.

(** X10. From a fresh player, whatever the observations and their counts,
    every call returns, and afterwards no listed sentence mentions a cell
    already in [mines] ([check_if_sentence_has_known_mines] is empty for
    each) or in [safes]. *)
Theorem listed_sentences_mention_no_known_cell (h w : Z)
    (observations : list (Cell * Z)) :
  ∃ fuel e',
    observe_all fuel observations (start (init h w)) = Some e'
    ∧ ∀ sentence, sentence ∈ sentences (now e') →
        check_if_sentence_has_known_mines sentence (now e') = ∅
        ∧ Sentence.cells sentence ∩ safes (now e') = ∅.
Proof.
  destruct (observe_all_returns observations (start (init h w))) as (fuel & e' & Hrun).
  exists fuel, e'. split; [by apply Hrun|].
  assert (tidy (now e')) as Ht.
  { eapply tidy_observe_all; [by apply Hrun|]. intros ref []%elem_of_nil. }
  intros sentence (ref & -> & Hin)%list_elem_of_fmap.
  destruct (Ht ref Hin) as [_ Hcells].
  unfold check_if_sentence_has_known_mines.
  split; apply set_eq; intros c; (split; [|by intros []%not_elem_of_empty]).
  - intros [Hm Hc]%elem_of_intersection. by destruct (Hcells c Hc).
  - intros [Hc Hs]%elem_of_intersection. by destruct (Hcells c Hc).
Qed.

End tidiness.

Section discharge.
Implicit Types (ai : MinesweeperAI) (e : Exec) (ref : nat) (c cell : Cell).

Lemma gathered_all ai (l : list nat) (acc : gset Cell * gset Cell) ref :
  ref ∈ l →
  let known :=
    foldl (λ (known : gset Cell * gset Cell) sentence,
             let (known_mines, known_safes) := known in
             (Sentence.known_mines (deref ai sentence) ∪ known_mines,
              Sentence.known_safes (deref ai sentence) ∪ known_safes))
          acc l in
  Sentence.known_mines (deref ai ref) ⊆ known.1
  ∧ Sentence.known_safes (deref ai ref) ⊆ known.2.
Proof.
  assert (∀ l acc,
    acc.1 ⊆ (foldl (λ (known : gset Cell * gset Cell) sentence,
             let (known_mines, known_safes) := known in
             (Sentence.known_mines (deref ai sentence) ∪ known_mines,
              Sentence.known_safes (deref ai sentence) ∪ known_safes)) acc l).1
    ∧ acc.2 ⊆ (foldl (λ (known : gset Cell * gset Cell) sentence,
             let (known_mines, known_safes) := known in
             (Sentence.known_mines (deref ai sentence) ∪ known_mines,
              Sentence.known_safes (deref ai sentence) ∪ known_safes)) acc l).2)
    as Hacc.
  { clear. intros l. induction l as [|r l IH]; intros [km ks]; simpl; [done|].
    destruct (IH (Sentence.known_mines (deref ai r) ∪ km,
                  Sentence.known_safes (deref ai r) ∪ ks)) as [H1 H2].
    simpl in *. split; [etrans; [|exact H1]|etrans; [|exact H2]];
      apply union_subseteq_r. }
  revert acc. induction l as [|r l IH]; intros [km ks] Hin;
    [by apply elem_of_nil in Hin|].
  apply elem_of_cons in Hin as [->|Hin]; simpl.
  - destruct (Hacc l (Sentence.known_mines (deref ai r) ∪ km,
                      Sentence.known_safes (deref ai r) ∪ ks)) as [H1 H2].
    simpl in *. split; [etrans; [|exact H1]|etrans; [|exact H2]];
      apply union_subseteq_l.
  - by apply IH.
Qed.

Lemma mark_safes_sets (l : list Cell) e :
  safes (now (foldl (λ e safe, mark_safe safe e) e l)) = list_to_set l ∪ safes (now e)
  ∧ mines (now (foldl (λ e safe, mark_safe safe e) e l)) = mines (now e).
Proof.
  revert e. induction l as [|c l IH]; intros e; simpl.
  - split; [|done]. by rewrite (left_id_L ∅ (∪)).
  - destruct (IH (mark_safe c e)) as [-> ->].
    destruct (mark_safe_sets c e) as (-> & -> & _). split; [|done].
    rewrite !(assoc_L (∪)). f_equal. apply (comm_L (∪)).
Qed.

(** A pass that reports nothing new, on a tidy state, has found no sentence
    to discharge. *)
Lemma discharge_pass_settled e :
  tidy (now e) → (discharge_pass e).2 = false → settled (now (discharge_pass e).1).
Proof.
  intros Ht. unfold discharge_pass. cbn [fst snd].
  set (e1 := clean_up_empty_knowledge e).
  set (known := foldl _ (∅, ∅) (knowledge (now e1))).
  set (e2 := foldl (λ e mine, mark_mine mine e) e1 (elements known.1)).
  set (e3 := foldl (λ e safe, mark_safe safe e) e2 (elements known.2)).
  intros Hsame. apply bool_decide_eq_false_1 in Hsame.
  assert (size (safes (now e1)) = size (safes (now e3))
          ∧ size (mines (now e1)) = size (mines (now e3))) as [Hs Hm].
  { split; apply dec_stable; intros Hne; apply Hsame; tauto. }
  assert (tidy (now e1)) as Ht1 by (by apply tidy_clean_up).
  destruct (mark_mines_sets (elements known.1) e1) as [Hm2 Hs2]. fold e2 in Hm2, Hs2.
  destruct (mark_safes_sets (elements known.2) e2) as [Hs3 Hm3]. fold e3 in Hs3, Hm3.
  assert (known.1 = ∅) as Hno1.
  { apply set_eq. intros c. split; [|by intros []%not_elem_of_empty].
    intros Hc. exfalso.
    destruct (gathered_known (now e1) (knowledge (now e1)) (∅, ∅) c) as [Hg _].
    destruct (Hg Hc) as [Hacc|(ref & Hin & Hkm)];
      [by apply not_elem_of_empty in Hacc|].
    apply known_mines_cells in Hkm.
    destruct (Ht1 ref Hin) as [_ Hcells]. destruct (Hcells c Hkm) as [Hnm _].
    assert (mines (now e1) ⊂ mines (now e3)) as Hlt.
    { rewrite Hm3, Hm2. split; [apply union_subseteq_r|].
      intros Hsub. apply Hnm, Hsub, elem_of_union. left.
      by apply elem_of_list_to_set, elem_of_elements. }
    apply subset_size in Hlt. lia. }
  assert (known.2 = ∅) as Hno2.
  { apply set_eq. intros c. split; [|by intros []%not_elem_of_empty].
    intros Hc. exfalso.
    destruct (gathered_known (now e1) (knowledge (now e1)) (∅, ∅) c) as [_ Hg].
    destruct (Hg Hc) as [Hacc|(ref & Hin & Hks)];
      [by apply not_elem_of_empty in Hacc|].
    apply known_safes_cells in Hks.
    destruct (Ht1 ref Hin) as [_ Hcells]. destruct (Hcells c Hks) as [_ Hns].
    assert (safes (now e1) ⊂ safes (now e3)) as Hlt.
    { rewrite Hs3, Hs2. split; [apply union_subseteq_r|].
      intros Hsub. apply Hns, Hsub, elem_of_union. left.
      by apply elem_of_list_to_set, elem_of_elements. }
    apply subset_size in Hlt. lia. }
  assert (e3 = e1) as ->.
  { unfold e3, e2. rewrite Hno1, Hno2, elements_empty. done. }
  intros ref Hin.
  destruct (gathered_all (now e1) (knowledge (now e1)) (∅, ∅) ref Hin) as [H1 H2].
  fold known in H1, H2. rewrite Hno1 in H1. rewrite Hno2 in H2.
  split; apply set_eq; intros c; (split; [|by intros []%not_elem_of_empty]);
    [apply H1|apply H2].
Qed.

Lemma settled_clean_up e :
  settled (now e) → settled (now (clean_up_empty_knowledge e)).
Proof.
  intros Hs ref [Hin _]%clean_up_listed. rewrite clean_up_deref. by apply Hs.
Qed.

Lemma discharge_loop_settled fuel e e' :
  discharge_loop fuel e = Some e' → tidy (now e) → settled (now e').
Proof.
  revert e. induction fuel as [|fuel IH]; intros e; [done|].
  cbn [discharge_loop]. intros Hloop Ht.
  pose proof (tidy_discharge_pass e Ht) as Hpass.
  pose proof (discharge_pass_settled e Ht) as Hsettled.
  destruct (discharge_pass e) as [e1 []]; simpl in *.
  - by eapply IH.
  - simplify_eq. by apply Hsettled.
Qed.

Lemma len_nonzero (x : Sentence.t) : Sentence.len x ≠ 0 ↔ Sentence.cells x ≠ ∅.
Proof.
  unfold Sentence.len. split.
  - intros Hlen Hempty. rewrite Hempty, size_empty in Hlen. done.
  - intros Hne Hlen. apply Hne. apply leibniz_equiv, size_empty_inv. lia.
Qed.

Lemma settled_resolve_loop (reason : nat → Exec → option Exec) new_knowledge :
  (∀ ref e e', reason ref e = Some e' → tidy (now e) → tidy (now e')) →
  (∀ ref e e', reason ref e = Some e' → tidy (now e) →
               Sentence.len (deref (now e) ref) ≠ 0 → settled (now e')) →
  ∀ fuel i e e',
    resolve_loop fuel reason new_knowledge i e = Some e' →
    tidy (now e) → settled (now e) → settled (now e').
Proof.
  intros Hrect Hrecs. induction fuel as [|fuel IH]; intros i e e'; [done|].
  cbn [resolve_loop]. intros Hloop Ht Hs.
  destruct (knowledge (now e) !! i) as [existing|]; [|by simplify_eq].
  case_decide as Hzero.
  { eapply IH; [done|by apply tidy_clean_up|by apply settled_clean_up]. }
  case_decide as Hsuper; [|by eapply IH].
  destruct Hsuper as [Hsub Hne].
  destruct (reason existing _) as [e2|] eqn:Hr; [|done]. simpl in Hloop.
  pose proof (tidy_subtract existing (deref (now e) new_knowledge) e Ht) as Ht1.
  eapply IH; [done|by eapply Hrect|].
  eapply Hrecs; [done|done|].
  apply len_nonzero. simpl.
  apply len_nonzero in Hzero.
  destruct (set_choose_L _ Hzero) as [d Hd].
  rewrite deref_on_sentence_eq by (by eapply deref_cells_valid).
  simpl. intros Hempty. apply Hne.
  apply set_eq. intros c. split; [|apply Hsub].
  intros Hc. destruct (decide (c ∈ Sentence.cells (deref (now e) new_knowledge)));
    [done|].
  exfalso. apply (not_elem_of_empty (C:=gset Cell) c). rewrite <- Hempty.
  by apply elem_of_difference.
Qed.

Lemma settled_reason fuel :
  ∀ new_knowledge e e',
    reason_about_new_knowledge fuel new_knowledge e = Some e' →
    tidy (now e) → Sentence.len (deref (now e) new_knowledge) ≠ 0 →
    settled (now e').
Proof.
  induction fuel as [|fuel IH]; intros new e e'; [done|].
  cbn [reason_about_new_knowledge]. intros Hr Ht Hlen.
  case_decide; [done|].
  destruct (discharge_loop fuel e) as [e1|] eqn:Hd; [|done]. simpl in Hr.
  eapply settled_resolve_loop; [| |exact Hr|by eapply tidy_discharge_loop
                                |by eapply discharge_loop_settled].
  - intros ref e2 e3. apply tidy_reason.
  - intros ref e2 e3. apply IH.
Qed.

End discharge.

Section completeness.
Implicit Types (ai : MinesweeperAI) (e : Exec) (ref : nat) (c cell : Cell).

Lemma mark_mines_keep (l : list Cell) e ref c :
  c ∈ Sentence.cells (deref (now e) ref) → c ∉ l →
  c ∈ Sentence.cells (deref (now (foldl (λ e mine, mark_mine mine e) e l)) ref).
Proof.
  revert e. induction l as [|d l IH]; intros e Hc Hl; simpl; [done|].
  apply IH.
  - apply mark_mine_keeps, elem_of_difference. split; [done|].
    intros ->%elem_of_singleton. apply Hl, list_elem_of_here.
  - intros Hin. by apply Hl, list_elem_of_further.
Qed.

(** The new sentence keeps, when reasoning starts, every neighbour that is
    neither the probed cell nor known to be safe or a mine. *)
Lemma prepared_new_sentence cell count e c :
  c ∈ get_unknown_neighbours cell (now e) → c ≠ cell → c ∉ mines (now e) →
  c ∈ Sentence.cells
        (deref (now (prepared cell count e))
               (length (store (now (mark_safe cell
                  (update (set_moves_made (λ m, {[cell]} ∪ m)) e)))))).
Proof.
  intros Hc Hne Hmine. unfold prepared.
  set (e1 := update (set_moves_made (λ m, {[cell]} ∪ m)) e).
  set (e2 := mark_safe cell e1).
  set (e3 := update (set_store _) e2).
  set (e4 := update (set_knowledge _) e3).
  pose proof (mark_safe_evolves cell e1) as H12. fold e2 in H12.
  destruct (mark_safe_sets cell e1) as (Hs2 & Hm2 & _). fold e2 in Hs2, Hm2.
  assert (c ∈ get_unknown_neighbours cell (now e2)) as Hc2.
  { apply get_unknown_neighbours_elem in Hc as (Hb & Hin & Hs).
    apply get_unknown_neighbours_elem.
    rewrite (ev_height _ _ H12), (ev_width _ _ H12), Hs2. simpl.
    split; [done|]. split; [done|].
    intros [?%elem_of_singleton|?]%elem_of_union; done. }
  apply mark_mines_keep.
  - unfold deref. simpl. rewrite lookup_app_r, Nat.sub_diag by lia. done.
  - intros [_ Hm]%elem_of_elements%elem_of_intersection.
    simpl in Hm. rewrite Hm2 in Hm. done.
Qed.

(** X11. When the probed cell has a neighbour on the board that is neither
    known safe nor a known mine, [add_knowledge], called on a state where no
    listed sentence mentions a known cell, returns with every listed sentence
    discharged: none with cells has count 0 or count equal to its number of
    cells. *)
Theorem discharged_when_new_sentence_has_cells e cell count :
  tidy (now e) →
  (∃ c, c ∈ get_unknown_neighbours cell (now e) ∧ c ≠ cell ∧ c ∉ mines (now e)) →
  ∃ fuel e',
    add_knowledge fuel cell count e = Some e'
    ∧ ∀ sentence, sentence ∈ sentences (now e') →
        Sentence.cells sentence ≠ ∅ →
        Sentence.count sentence ≠ 0
        ∧ Sentence.count sentence ≠ Sentence.len sentence.
Proof.
  intros Ht (c & Hc & Hne & Hmine).
  destruct (add_knowledge_returns cell count e) as (fuel & e' & Hrun).
  destruct (Hrun fuel (le_n _)) as [Ha _].
  exists fuel, e'. split; [exact Ha|].
  assert (settled (now e')) as Hsettled.
  { rewrite add_knowledge_prepared in Ha.
    eapply settled_reason; [exact Ha|by apply tidy_prepared|].
    apply len_nonzero. intros Hempty.
    apply (not_elem_of_empty (C:=gset Cell) c). rewrite <- Hempty.
    by apply prepared_new_sentence. }
  intros sentence (ref & -> & Hin)%list_elem_of_fmap Hcells.
  destruct (Hsettled ref Hin) as [Hkm Hks].
  unfold Sentence.known_mines in Hkm. unfold Sentence.known_safes in Hks.
  split; intros Hcount.
  - rewrite decide_True in Hks by done. done.
  - rewrite decide_True in Hkm by done. done.
Qed.

Lemma tidy_init h w : tidy (now (start (init h w))).
Proof. intros ref []%elem_of_nil. Defined.

(** The first probe of scenario B. *)
Lemma discharged_when_new_sentence_has_cells_witness :
  tidy (now (start (init 2 2)))
  ∧ (∃ c, c ∈ get_unknown_neighbours (0, 0) (now (start (init 2 2)))
          ∧ c ≠ (0, 0) ∧ c ∉ mines (now (start (init 2 2))))
  ∧ ∃ fuel e',
      add_knowledge fuel (0, 0) 1 (start (init 2 2)) = Some e'
      ∧ ∀ sentence, sentence ∈ sentences (now e') →
          Sentence.cells sentence ≠ ∅ →
          Sentence.count sentence ≠ 0
          ∧ Sentence.count sentence ≠ Sentence.len sentence.
Proof.
  assert (∃ c, c ∈ get_unknown_neighbours (0, 0) (now (start (init 2 2)))
               ∧ c ≠ (0, 0) ∧ c ∉ mines (now (start (init 2 2)))) as Hc.
  { exists (0, 1). apply (bool_decide_eq_true_1 _). vm_compute. reflexivity. }
  split; [apply tidy_init|]. split; [exact Hc|].
  exact (discharged_when_new_sentence_has_cells
           (start (init 2 2)) (0, 0) 1 (tidy_init 2 2) Hc).
Defined.

End completeness.

Section first_pass.
Implicit Types (ai : MinesweeperAI) (e : Exec) (ref : nat) (c cell : Cell).

Lemma discharge_loop_evolves fuel e e' :
  discharge_loop fuel e = Some e' → evolves (now e) (now e').
Proof.
  revert e. induction fuel as [|fuel IH]; intros e; [done|].
  cbn [discharge_loop]. intros Hloop.
  pose proof (discharge_pass_evolves e) as Hpass.
  destruct (discharge_pass e) as [e1 []]; simpl in *.
  - eapply evolves_trans; [exact Hpass|by apply IH].
  - by simplify_eq.
Qed.

Lemma reason_evolves fuel new_knowledge e e' :
  reason_about_new_knowledge fuel new_knowledge e = Some e' →
  evolves (now e) (now e').
Proof.
  intros Hr.
  set (fuel0 := (weight (now e) + length (knowledge (now e)) + 3)%nat).
  destruct (reason_terminates (Nat.max fuel fuel0) new_knowledge e) as (e0 & Hr0 & Hev);
    [lia|].
  rewrite (reason_mono fuel (Nat.max fuel fuel0) _ _ _ ltac:(lia) Hr) in Hr0.
  by simplify_eq.
Qed.

Lemma resolve_loop_evolves fuel (reason : nat → Exec → option Exec) new_knowledge :
  (∀ ref e e', reason ref e = Some e' → evolves (now e) (now e')) →
  ∀ i e e',
    resolve_loop fuel reason new_knowledge i e = Some e' → evolves (now e) (now e').
Proof.
  intros Hrec. induction fuel as [|fuel IH]; intros i e e'; [done|].
  cbn [resolve_loop]. intros Hloop.
  destruct (knowledge (now e) !! i) as [existing|];
    [|simplify_eq; apply evolves_refl].
  case_decide.
  { eapply evolves_trans; [apply clean_up_evolves|by eapply IH]. }
  case_decide as Hsuper; [|by eapply IH].
  destruct (reason existing _) as [e2|] eqn:Hr; [|done]. simpl in Hloop.
  pose proof (Hrec _ _ _ Hr) as Hev2. simpl in Hev2.
  eapply evolves_trans; [apply (subtract_evolves existing)|].
  eapply evolves_trans; [exact Hev2|by eapply IH].
Qed.

(** What the new sentence tells by itself when reasoning starts is known
    when reasoning ends. *)
Lemma reason_first_pass fuel new_knowledge e e' :
  reason_about_new_knowledge fuel new_knowledge e = Some e' →
  new_knowledge ∈ knowledge (now e) →
  Sentence.known_mines (deref (now e) new_knowledge) ⊆ mines (now e')
  ∧ Sentence.known_safes (deref (now e) new_knowledge) ⊆ safes (now e').
Proof.
  destruct fuel as [|fuel]; [done|].
  cbn [reason_about_new_knowledge]. intros Hr Hin.
  case_decide as Hzero.
  { simplify_eq.
    assert (Sentence.cells (deref (now e') new_knowledge) = ∅) as Hempty.
    { destruct (decide (Sentence.cells (deref (now e') new_knowledge) = ∅)); [done|].
      by apply len_nonzero in n. }
    split.
    - etrans; [apply known_mines_cells|]. rewrite Hempty. apply empty_subseteq.
    - etrans; [apply known_safes_cells|]. rewrite Hempty. apply empty_subseteq. }
  destruct (discharge_loop fuel e) as [e1|] eqn:Hd; [|done]. simpl in Hr.
  assert (evolves (now e1) (now e')) as Hev1.
  { eapply resolve_loop_evolves; [|exact Hr]. intros ref e2 e3. apply reason_evolves. }
  destruct fuel as [|fuel]; [done|]. cbn [discharge_loop] in Hd.
  assert (evolves (now (discharge_pass e).1) (now e1)) as Hevp.
  { destruct (discharge_pass e) as [ep []]; simpl in *.
    - by eapply discharge_loop_evolves.
    - simplify_eq. apply evolves_refl. }
  assert (Sentence.known_mines (deref (now e) new_knowledge)
            ⊆ mines (now (discharge_pass e).1)
          ∧ Sentence.known_safes (deref (now e) new_knowledge)
            ⊆ safes (now (discharge_pass e).1)) as [Hm Hs].
  { unfold discharge_pass. cbn [fst snd].
    set (ec := clean_up_empty_knowledge e).
    set (known := foldl _ (∅, ∅) (knowledge (now ec))).
    destruct (mark_mines_sets (elements known.1) ec) as [Hm2 Hs2].
    destruct (mark_safes_sets (elements known.2)
                (foldl (λ e mine, mark_mine mine e) ec (elements known.1)))
      as [Hs3 Hm3].
    assert (new_knowledge ∈ knowledge (now ec)) as Hinc
      by (by apply clean_up_listed).
    destruct (gathered_all (now ec) (knowledge (now ec)) (∅, ∅) new_knowledge Hinc)
      as [H1 H2].
    fold known in H1, H2. unfold ec in H1, H2 at 1. rewrite clean_up_deref in H1, H2.
    rewrite Hm3, Hm2, Hs3. split.
    - intros c Hc%H1. apply elem_of_union. left.
      by apply elem_of_list_to_set, elem_of_elements.
    - intros c Hc%H2. apply elem_of_union. left.
      by apply elem_of_list_to_set, elem_of_elements. }
  split.
  - etrans; [exact Hm|]. etrans; [apply (ev_mines _ _ Hevp)|apply (ev_mines _ _ Hev1)].
  - etrans; [exact Hs|]. etrans; [apply (ev_safes _ _ Hevp)|apply (ev_safes _ _ Hev1)].
Qed.

End first_pass.

Section direct_deductions.
Implicit Types (ai : MinesweeperAI) (e : Exec) (ref : nat) (c cell : Cell).

(** The state on which reasoning starts when no neighbour is a known mine. *)
Lemma prepared_plain cell count e :
  (∀ c, c ∈ get_unknown_neighbours cell (now e) → c ∉ mines (now e)) →
  let new_knowledge :=
    length (store (now (mark_safe cell
              (update (set_moves_made (λ m, {[cell]} ∪ m)) e)))) in
  new_knowledge ∈ knowledge (now (prepared cell count e))
  ∧ deref (now (prepared cell count e)) new_knowledge
    = Sentence.Build (get_unknown_neighbours cell (now e) ∖ {[cell]}) count
  ∧ {[cell]} ∪ safes (now e) ⊆ safes (now (prepared cell count e)).
Proof.
  intros Hnomine. unfold prepared.
  set (e1 := update (set_moves_made (λ m, {[cell]} ∪ m)) e).
  set (e2 := mark_safe cell e1).
  set (e3 := update (set_store _) e2).
  set (e4 := update (set_knowledge _) e3).
  pose proof (mark_safe_evolves cell e1) as H12. fold e2 in H12.
  destruct (mark_safe_sets cell e1) as (Hs2 & Hm2 & _). fold e2 in Hs2, Hm2.
  assert (get_unknown_neighbours cell (now e2)
          = get_unknown_neighbours cell (now e) ∖ {[cell]}) as Hnew.
  { apply set_eq. intros c.
    rewrite elem_of_difference, !get_unknown_neighbours_elem, elem_of_singleton.
    rewrite (ev_height _ _ H12), (ev_width _ _ H12), Hs2. simpl.
    rewrite elem_of_union, elem_of_singleton. tauto. }
  assert (deref (now e4) (length (store (now e2)))
          = Sentence.Build (get_unknown_neighbours cell (now e) ∖ {[cell]}) count)
    as Hderef.
  { unfold deref. simpl. rewrite lookup_app_r, Nat.sub_diag by lia. simpl.
    by rewrite Hnew. }
  assert (Sentence.cells (deref (now e4) (length (store (now e2)))) ∩ mines (now e4) = ∅)
    as ->.
  { rewrite Hderef. simpl. rewrite Hm2. simpl.
    apply set_eq. intros c. split; [|by intros []%not_elem_of_empty].
    intros [[Hc _]%elem_of_difference Hm]%elem_of_intersection.
    by destruct (Hnomine c Hc). }
  rewrite elements_empty. simpl. split; [|split].
  - apply elem_of_app. right. apply list_elem_of_here.
  - exact Hderef.
  - by rewrite Hs2.
Qed.

(** X12. A count of zero clears the neighbourhood: when no neighbour of the
    probed cell is a known mine, [add_knowledge(cell, 0)] returns with the
    cell and every cell of the board within one row and one column of it in
    [safes]. *)
Theorem zero_count_clears_neighbours e cell :
  (∀ c, c ∈ get_unknown_neighbours cell (now e) → c ∉ mines (now e)) →
  ∃ fuel e',
    add_knowledge fuel cell 0 e = Some e'
    ∧ cell ∈ safes (now e')
    ∧ ∀ c, cell.1 - 1 ≤ c.1 ≤ cell.1 + 1 ∧ cell.2 - 1 ≤ c.2 ≤ cell.2 + 1 →
           0 ≤ c.1 < height (now e) ∧ 0 ≤ c.2 < width (now e) →
           c ∈ safes (now e').
Proof.
  intros Hnomine.
  destruct (add_knowledge_returns cell 0 e) as (fuel & e' & Hrun).
  destruct (Hrun fuel (le_n _)) as [Ha Hev].
  exists fuel, e'. split; [exact Ha|].
  destruct (prepared_plain cell 0 e Hnomine) as (Hin & Hderef & Hsafes).
  rewrite add_knowledge_prepared in Ha.
  destruct (reason_first_pass _ _ _ _ Ha Hin) as [_ Hks].
  rewrite Hderef in Hks. unfold Sentence.known_safes in Hks. simpl in Hks.
  assert ({[cell]} ∪ safes (now e) ⊆ safes (now e')) as Hold.
  { etrans; [exact Hsafes|apply (ev_safes _ _ Hev)]. }
  split; [apply Hold, elem_of_union; left; by apply elem_of_singleton|].
  intros c Hnear Hboard.
  destruct (decide (c ∈ {[cell]} ∪ safes (now e))) as [Hc|Hc]; [by apply Hold|].
  apply Hks, elem_of_difference. split.
  - apply get_unknown_neighbours_elem. rewrite block_elem.
    split; [done|]. split; [done|].
    intros Hs. apply Hc, elem_of_union. by right.
  - intros Heq. apply Hc, elem_of_union. by left.
Qed.

(** On a fresh player no cell is a known mine. *)
Lemma zero_count_clears_neighbours_witness :
  (∀ c, c ∈ get_unknown_neighbours (0, 0) (now (start (init 2 2)))
        → c ∉ mines (now (start (init 2 2))))
  ∧ ∃ fuel e',
      add_knowledge fuel (0, 0) 0 (start (init 2 2)) = Some e'
      ∧ (0, 0) ∈ safes (now e')
      ∧ ∀ c : Cell, 0 - 1 ≤ c.1 ≤ 0 + 1 ∧ 0 - 1 ≤ c.2 ≤ 0 + 1 →
             0 ≤ c.1 < 2 ∧ 0 ≤ c.2 < 2 →
             c ∈ safes (now e').
Proof.
  assert (∀ c, c ∈ get_unknown_neighbours (0, 0) (now (start (init 2 2)))
               → c ∉ mines (now (start (init 2 2)))) as Hnomine.
  { intros c _. simpl. apply not_elem_of_empty. }
  split; [exact Hnomine|].
  exact (zero_count_clears_neighbours (start (init 2 2)) (0, 0) Hnomine).
Defined.

(** X13. A full count marks the neighbourhood: when no neighbour of the
    probed cell is a known mine and the count is the number of its neighbours
    on the board that are not known safe, [add_knowledge] returns with all of
    these neighbours in [mines]. *)
Theorem full_count_marks_neighbours e cell count :
  (∀ c, c ∈ get_unknown_neighbours cell (now e) → c ∉ mines (now e)) →
  count = Z.of_nat (size (get_unknown_neighbours cell (now e) ∖ {[cell]})) →
  ∃ fuel e',
    add_knowledge fuel cell count e = Some e'
    ∧ get_unknown_neighbours cell (now e) ∖ {[cell]} ⊆ mines (now e').
Proof.
  intros Hnomine Hcount.
  destruct (add_knowledge_returns cell count e) as (fuel & e' & Hrun).
  destruct (Hrun fuel (le_n _)) as [Ha Hev].
  exists fuel, e'. split; [exact Ha|].
  destruct (prepared_plain cell count e Hnomine) as (Hin & Hderef & _).
  rewrite add_knowledge_prepared in Ha.
  destruct (reason_first_pass _ _ _ _ Ha Hin) as [Hkm _].
  rewrite Hderef in Hkm. unfold Sentence.known_mines, Sentence.len in Hkm.
  simpl in Hkm. by rewrite decide_True in Hkm.
Qed.

(** The corner of a fresh 2×2 board with count 3. *)
Lemma full_count_marks_neighbours_witness :
  (∀ c, c ∈ get_unknown_neighbours (0, 0) (now (start (init 2 2)))
        → c ∉ mines (now (start (init 2 2))))
  ∧ 3 = Z.of_nat (size (get_unknown_neighbours (0, 0) (now (start (init 2 2)))
                        ∖ {[(0, 0)]}))
  ∧ ∃ fuel e',
      add_knowledge fuel (0, 0) 3 (start (init 2 2)) = Some e'
      ∧ get_unknown_neighbours (0, 0) (now (start (init 2 2))) ∖ {[(0, 0)]}
        ⊆ mines (now e').
Proof.
  assert (∀ c, c ∈ get_unknown_neighbours (0, 0) (now (start (init 2 2)))
               → c ∉ mines (now (start (init 2 2)))) as Hnomine.
  { intros c _. simpl. apply not_elem_of_empty. }
  assert (3 = Z.of_nat (size (get_unknown_neighbours (0, 0) (now (start (init 2 2)))
                              ∖ {[(0, 0)]}))) as Hcount
    by (vm_compute; reflexivity).
  split; [exact Hnomine|]. split; [exact Hcount|].
  exact (full_count_marks_neighbours (start (init 2 2)) (0, 0) 3 Hnomine Hcount).
Defined.

End direct_deductions.

Section proposals.
Implicit Types (ai : MinesweeperAI) (e : Exec) (c cell : Cell).

(** X14. Deduction is sound: when the observations are those of a board, the
    calls return with every known mine a mine of the board and every known
    safe not a mine, so that [make_safe_move] never proposes a mine. *)
Theorem deductions_sound (g : Minesweeper.t) (observations : list (Cell * Z)) :
  consistent g observations →
  ∃ fuel e',
    observe_all fuel observations
      (start (init (Minesweeper.height g) (Minesweeper.width g))) = Some e'
    ∧ (∀ c, c ∈ mines (now e') → Minesweeper.is_mine g c = true)
    ∧ (∀ c, c ∈ safes (now e') → Minesweeper.is_mine g c = false)
    ∧ (∀ c, make_safe_move (now e') = Some c → Minesweeper.is_mine g c = false).
Proof.
  intros Hobs.
  destruct (observe_all_returns observations
    (start (init (Minesweeper.height g) (Minesweeper.width g)))) as (fuel & e' & Hrun).
  exists fuel, e'. split; [by apply Hrun|].
  pose proof (all_sound_now g _ (all_sound_observe_all g fuel observations _ e' Hobs
                (Hrun fuel (le_n _)) (all_sound_init g))) as Hs.
  split; [apply (snd_mines _ _ Hs)|]. split; [apply (snd_safes _ _ Hs)|].
  intros c Hc. apply (snd_safes _ _ Hs).
  unfold make_safe_move in Hc.
  apply head_Some_elem_of, list_elem_of_filter in Hc as [_ Hsafe].
  by apply elem_of_elements in Hsafe.
Qed.

(** Soundness of the deductions, on the observations of scenario B. *)
Lemma deductions_sound_witness :
  consistent board_2x2 [((0, 0), 1); ((0, 1), 1)]
  ∧ ∃ fuel e',
      observe_all fuel [((0, 0), 1); ((0, 1), 1)] (start (init 2 2)) = Some e'
      ∧ (∀ c, c ∈ mines (now e') → Minesweeper.is_mine board_2x2 c = true)
      ∧ (∀ c, c ∈ safes (now e') → Minesweeper.is_mine board_2x2 c = false)
      ∧ (∀ c, make_safe_move (now e') = Some c
              → Minesweeper.is_mine board_2x2 c = false).
Proof.
  split; [exact consistent_2x2|].
  exact (deductions_sound board_2x2 _ consistent_2x2).
Defined.

Lemma add_knowledge_observed fuel cell count e e' :
  add_knowledge fuel cell count e = Some e' → cell ∈ moves_made (now e').
Proof.
  rewrite add_knowledge_prepared. intros Hr.
  apply (ev_moves_made _ _ (reason_evolves _ _ _ _ Hr)).
  by destruct (prepared_observed cell count e) as (? & _).
Qed.

Lemma observe_all_observed fuel observations e e' :
  observe_all fuel observations e = Some e' →
  moves_made (now e) ⊆ moves_made (now e')
  ∧ ∀ o, o ∈ observations → o.1 ∈ moves_made (now e').
Proof.
  revert e. induction observations as [|[cell count] rest IH]; intros e; simpl.
  - intros. simplify_eq. split; [done|]. by intros o []%elem_of_nil.
  - destruct (add_knowledge fuel cell count e) as [e1|] eqn:Ha; [|done]. simpl.
    intros Hrest. destruct (IH e1 Hrest) as [Hsub Hall].
    pose proof (gr_moves_made _ _ (add_knowledge_grows _ _ _ _ _ Ha)) as Hsub1.
    split; [by etrans|].
    intros o [->|Ho]%elem_of_cons; [|by apply Hall].
    simpl. by eapply Hsub, add_knowledge_observed.
Qed.

(** X15. A probed cell is never proposed again: after any sequence of
    [add_knowledge] calls, from any state, neither [make_safe_move] nor
    [make_random_move] returns a cell that one of the calls was made for. *)
Theorem probed_cells_not_proposed (observations : list (Cell * Z)) e :
  ∃ fuel e',
    observe_all fuel observations e = Some e'
    ∧ ∀ o, o ∈ observations →
        make_safe_move (now e') ≠ Some o.1
        ∧ make_random_move (now e') ≠ Some o.1.
Proof.
  destruct (observe_all_returns observations e) as (fuel & e' & Hrun).
  exists fuel, e'. split; [by apply Hrun|].
  destruct (observe_all_observed _ _ _ _ (Hrun fuel (le_n _))) as [_ Hall].
  intros o Ho. specialize (Hall o Ho). split; intros Hmove.
  - unfold make_safe_move in Hmove.
    by apply head_Some_elem_of, list_elem_of_filter in Hmove as [Hnew _].
  - apply make_random_move_elem in Hmove. unfold candidates in Hmove.
    apply elem_of_difference in Hmove as [_ Hnot].
    apply Hnot, elem_of_union. by left.
Qed.

End proposals.

Section rules.
Context (g : Minesweeper.t).
Implicit Types (s : Sentence.t) (c : Cell).

(** X16. What a true sentence tells is true: if the count of a sentence is
    the number of mines among its cells, the cells that [known_mines] returns
    are mines and the cells that [known_safes] returns are not. *)
Theorem known_cells_sound s :
  true_sentence g s →
  (∀ c, c ∈ Sentence.known_mines s → Minesweeper.is_mine g c = true)
  ∧ (∀ c, c ∈ Sentence.known_safes s → Minesweeper.is_mine g c = false).
Proof.
  intros Hs. split; intros c Hc.
  - by eapply true_known_mines.
  - by eapply true_known_safes.
Qed.

(** X17. [Sentence.mark_mine] with a cell that is a mine and
    [Sentence.mark_safe] with a cell that is not keep a true sentence true,
    whether or not the cell is in the sentence. *)
Theorem marking_keeps_truth s c :
  true_sentence g s →
  (Minesweeper.is_mine g c = true → true_sentence g (Sentence.mark_mine c s))
  ∧ (Minesweeper.is_mine g c = false → true_sentence g (Sentence.mark_safe c s)).
Proof.
  intros Hs. split; intros Hc.
  - by apply true_mark_mine.
  - by apply true_mark_safe.
Qed.

(** X18. The subset rule of [reason_about_new_knowledge] is sound: taking the
    cells and the count of a true sentence out of a true sentence that has
    all its cells leaves a true sentence. *)
Theorem subset_rule_sound (new existing : Sentence.t) :
  true_sentence g new → true_sentence g existing →
  Sentence.cells new ⊆ Sentence.cells existing →
  true_sentence g (subtract new existing).
Proof. intros Hnew Hex Hsub. by apply true_subtract. Qed.

End rules.

(** A sentence of the 2×2 board that tells its cell is a mine. *)
Lemma known_cells_sound_witness :
  true_sentence board_2x2 (Sentence.Build {[(1, 1)]} 1)
  ∧ (∀ c, c ∈ Sentence.known_mines (Sentence.Build {[(1, 1)]} 1)
          → Minesweeper.is_mine board_2x2 c = true)
  ∧ (∀ c, c ∈ Sentence.known_safes (Sentence.Build {[(1, 1)]} 1)
          → Minesweeper.is_mine board_2x2 c = false).
Proof.
  assert (true_sentence board_2x2 (Sentence.Build {[(1, 1)]} 1)) as Hs
    by (vm_compute; reflexivity).
  split; [exact Hs|].
  exact (known_cells_sound board_2x2 _ Hs).
Defined.

(** The second sentence of scenario B, from which (1,1) is marked. *)
Lemma marking_keeps_truth_witness :
  true_sentence board_2x2 (Sentence.Build {[(1, 0); (1, 1)]} 1)
  ∧ (Minesweeper.is_mine board_2x2 (1, 1) = true
     → true_sentence board_2x2
         (Sentence.mark_mine (1, 1) (Sentence.Build {[(1, 0); (1, 1)]} 1)))
  ∧ (Minesweeper.is_mine board_2x2 (1, 1) = false
     → true_sentence board_2x2
         (Sentence.mark_safe (1, 1) (Sentence.Build {[(1, 0); (1, 1)]} 1))).
Proof.
  assert (true_sentence board_2x2 (Sentence.Build {[(1, 0); (1, 1)]} 1)) as Hs
    by (vm_compute; reflexivity).
  split; [exact Hs|].
  exact (marking_keeps_truth board_2x2 _ (1, 1) Hs).
Defined.

(** The first sentence of scenario B and a true sentence on two of its cells. *)
Lemma subset_rule_sound_witness :
  true_sentence board_2x2 (Sentence.Build {[(1, 0); (1, 1)]} 1)
  ∧ true_sentence board_2x2 (Sentence.Build {[(0, 1); (1, 0); (1, 1)]} 1)
  ∧ Sentence.cells (Sentence.Build {[(1, 0); (1, 1)]} 1)
    ⊆ Sentence.cells (Sentence.Build {[(0, 1); (1, 0); (1, 1)]} 1)
  ∧ true_sentence board_2x2
      (subtract (Sentence.Build {[(1, 0); (1, 1)]} 1)
                (Sentence.Build {[(0, 1); (1, 0); (1, 1)]} 1)).
Proof.
  assert (true_sentence board_2x2 (Sentence.Build {[(1, 0); (1, 1)]} 1)) as Hnew
    by (vm_compute; reflexivity).
  assert (true_sentence board_2x2 (Sentence.Build {[(0, 1); (1, 0); (1, 1)]} 1)) as Hex
    by (vm_compute; reflexivity).
  assert (Sentence.cells (Sentence.Build {[(1, 0); (1, 1)]} 1)
          ⊆ Sentence.cells (Sentence.Build {[(0, 1); (1, 0); (1, 1)]} 1)) as Hsub.
  { simpl. set_solver. }
  split; [exact Hnew|]. split; [exact Hex|]. split; [exact Hsub|].
  exact (subset_rule_sound board_2x2 _ _ Hnew Hex Hsub).
Defined.

(** X19. [make_random_move] returns a cell of the board that has not been
    chosen and is not a known mine, and returns [None] exactly when there is
    no such cell. *)
Theorem make_random_move_spec (ai : MinesweeperAI) :
  (∀ c, make_random_move ai = Some c
        → c ∈ all_moves ai ∧ (c ∉ moves_made ai) ∧ (c ∉ mines ai))
  ∧ (make_random_move ai = None ↔ all_moves ai ⊆ moves_made ai ∪ mines ai).
Proof.
  split.
  - intros c Hc%make_random_move_elem. unfold candidates in Hc.
    apply elem_of_difference in Hc as [Hall Hnot]. split; [done|].
    split; intros ?; apply Hnot, elem_of_union; auto.
  - rewrite make_random_move_None. unfold candidates. split.
    + intros Hempty c Hc.
      destruct (decide (c ∈ moves_made ai ∪ mines ai)) as [|Hnot]; [done|].
      exfalso. apply (not_elem_of_empty (C:=gset Cell) c). rewrite <- Hempty.
      by apply elem_of_difference.
    + intros Hsub. apply set_eq. intros c.
      split; [|by intros []%not_elem_of_empty].
      intros [Hall Hnot]%elem_of_difference. by destruct Hnot; apply Hsub.
Qed.

Section construction.
Implicit Types (g : Minesweeper.t) (placed : gset Cell) (c : Cell).

Lemma foldl_snoc_const {A B} (x : A) (l : list B) (acc : list A) :
  foldl (λ acc _, acc ++ [x]) acc l = acc ++ replicate (length l) x.
Proof.
  revert acc. induction l as [|b l IH]; intros acc; simpl.
  - by rewrite (right_id_L [] (++)).
  - rewrite IH. by rewrite <- (assoc_L (++)).
Qed.

Lemma empty_board_replicate (h w : Z) :
  empty_board h w = replicate (Z.to_nat h) (replicate (Z.to_nat w) false).
Proof.
  unfold empty_board. rewrite !foldl_snoc_const. simpl.
  unfold range. by rewrite !length_seqZ, !Z.sub_0_r.
Qed.

Lemma board_at_set_mine g i j i' j' :
  shaped g →
  0 ≤ i < Minesweeper.height g → 0 ≤ j < Minesweeper.width g →
  0 ≤ i' → 0 ≤ j' →
  Minesweeper.board_at (set_mine i j g) i' j'
  = if decide (i = i' ∧ j = j') then true else Minesweeper.board_at g i' j'.
Proof.
  intros [Hlen Hrows] Hi Hj Hi' Hj'. unfold Minesweeper.board_at, set_mine. simpl.
  rewrite list_lookup_alter.
  destruct (decide (Z.to_nat i = Z.to_nat i')) as [Heq|Hne].
  - assert (i = i') as <- by lia.
    destruct (Minesweeper.board g !! Z.to_nat i) as [row|] eqn:Hrow.
    2:{ apply lookup_ge_None in Hrow. lia. }
    simpl. rewrite list_lookup_insert.
    pose proof (Forall_lookup_1 _ _ _ _ Hrows Hrow) as Hw. simpl in Hw.
    destruct (decide (j = j')) as [<-|Hnej].
    + rewrite decide_True by (split; [done|lia]).
      by rewrite decide_True.
    + rewrite decide_False by (intros [? _]; lia).
      by rewrite decide_False by (intros [_ ?]; done).
  - rewrite decide_False by (intros [? _]; lia). done.
Qed.

Lemma shaped_set_mine g i j : shaped g → shaped (set_mine i j g).
Proof.
  intros [Hlen Hrows]. split; simpl.
  - by rewrite length_alter.
  - apply Forall_alter; [done|]. intros row _ Hrow. by rewrite length_insert.
Qed.

Lemma laid_out_empty (h w : Z) :
  laid_out h w (Minesweeper.Build h w (empty_board h w)) ∅.
Proof.
  rewrite empty_board_replicate. split_and!; simpl; try done.
  - split; simpl; [by rewrite length_replicate|].
    apply Forall_replicate. by rewrite length_replicate.
  - intros i j Hi Hj. unfold Minesweeper.board_at. simpl.
    rewrite lookup_replicate_2 by lia. simpl.
    rewrite lookup_replicate_2 by lia. simpl.
    split; [done|by intros []%not_elem_of_empty].
Qed.

Lemma laid_out_set_mine (h w : Z) g placed i j :
  0 ≤ i < h → 0 ≤ j < w →
  laid_out h w g placed → laid_out h w (set_mine i j g) ({[(i, j)]} ∪ placed).
Proof.
  intros Hi Hj (Hh & Hw & Hshape & Hsub & Hagree). split_and!; try done.
  - by apply shaped_set_mine.
  - intros c [->%elem_of_singleton|Hc]%elem_of_union; [|by apply Hsub].
    by apply calculate_all_moves_grid.
  - intros i' j' Hi' Hj'. subst h w.
    rewrite board_at_set_mine by (done || lia).
    rewrite elem_of_union, elem_of_singleton, <- Hagree by done.
    case_decide as Heq.
    + destruct Heq as [-> ->]. tauto.
    + split; [tauto|]. intros [?|?]; [|done]. simplify_eq. tauto.
Qed.

Lemma place_mines_laid_out (h w wanted : Z) (draws : list Cell) :
  in_range h w draws →
  ∀ g placed G,
    laid_out h w g placed →
    place_mines draws wanted g placed = Some G →
    laid_out h w (game G) (game_mines G)
    ∧ Z.of_nat (size (game_mines G)) = wanted
    ∧ mines_found G = ∅.
Proof.
  induction 1 as [|[i j] draws [Hi Hj] _ IH]; intros g placed G Hlaid;
    cbn [place_mines]; case_decide as Hsize; try done.
  - intros. simplify_eq. simpl. split; [done|]. split; [lia|done].
  - destruct (negb (Minesweeper.board_at g i j)).
    + apply IH. by apply laid_out_set_mine.
    + by apply IH.
  - intros. simplify_eq. simpl. split; [done|]. split; [lia|done].
Qed.

Lemma place_mines_never (h w wanted : Z) (draws : list Cell) :
  wanted < 0 ∨ Z.of_nat (Z.to_nat h * Z.to_nat w) < wanted →
  in_range h w draws →
  ∀ g placed, laid_out h w g placed → place_mines draws wanted g placed = None.
Proof.
  intros Hwanted. induction 1 as [|[i j] draws [Hi Hj] _ IH]; intros g placed Hlaid;
    cbn [place_mines].
  all: assert (Z.of_nat (size placed) ≠ wanted) as Hsize.
  1,3: destruct Hlaid as (_ & _ & _ & Hsub & _);
       apply subseteq_size in Hsub;
       destruct (calculate_all_moves_grid h w) as [_ Hgrid];
       rewrite Hgrid in Hsub; lia.
  all: rewrite decide_True by done.
  - done.
  - destruct (negb (Minesweeper.board_at g i j)).
    + apply IH. by apply laid_out_set_mine.
    + by apply IH.
Qed.

(** X20. When [Minesweeper.__init__] returns, the board and the set of mines
    agree: exactly the number of mines asked for are placed, all on the
    board, a cell of the board holds a mine exactly when it is in
    [self.mines], and no mine is found yet. *)
Theorem new_game_spec (draws : list Cell) (h w wanted : Z) (G : Game) :
  in_range h w draws →
  new_game draws h w wanted = Some G →
  Z.of_nat (size (game_mines G)) = wanted
  ∧ mines_found G = ∅
  ∧ Minesweeper.height (game G) = h ∧ Minesweeper.width (game G) = w
  ∧ (∀ c, c ∈ game_mines G → 0 ≤ c.1 < h ∧ 0 ≤ c.2 < w)
  ∧ (∀ i j, 0 ≤ i < h → 0 ≤ j < w →
       (Minesweeper.board_at (game G) i j = true ↔ (i, j) ∈ game_mines G)).
Proof.
  intros Hdraws Hnew.
  destruct (place_mines_laid_out h w wanted draws Hdraws _ _ G
              (laid_out_empty h w) Hnew)
    as ((Hh & Hw & _ & Hsub & Hagree) & Hsize & Hfound).
  split_and!; try done.
  intros c Hc. by apply calculate_all_moves_grid, Hsub.
Qed.

(** One draw places the mine of the 2×2 board. *)
Lemma new_game_spec_witness :
  in_range 2 2 [(1, 1)]
  ∧ new_game [(1, 1)] 2 2 1 = Some (BuildGame board_2x2 {[(1, 1)]} ∅)
  ∧ Z.of_nat (size (game_mines (BuildGame board_2x2 {[(1, 1)]} ∅))) = 1
  ∧ mines_found (BuildGame board_2x2 {[(1, 1)]} ∅) = ∅
  ∧ Minesweeper.height (game (BuildGame board_2x2 {[(1, 1)]} ∅)) = 2
  ∧ Minesweeper.width (game (BuildGame board_2x2 {[(1, 1)]} ∅)) = 2
  ∧ (∀ c, c ∈ game_mines (BuildGame board_2x2 {[(1, 1)]} ∅)
          → 0 ≤ c.1 < 2 ∧ 0 ≤ c.2 < 2)
  ∧ (∀ i j, 0 ≤ i < 2 → 0 ≤ j < 2 →
       (Minesweeper.board_at (game (BuildGame board_2x2 {[(1, 1)]} ∅)) i j = true
        ↔ (i, j) ∈ game_mines (BuildGame board_2x2 {[(1, 1)]} ∅))).
Proof.
  assert (in_range 2 2 [(1, 1)]) as Hdraws.
  { apply Forall_singleton. simpl. lia. }
  assert (new_game [(1, 1)] 2 2 1 = Some (BuildGame board_2x2 {[(1, 1)]} ∅)) as Hnew
    by (vm_compute; reflexivity).
  split; [exact Hdraws|]. split; [exact Hnew|].
  exact (new_game_spec [(1, 1)] 2 2 1 _ Hdraws Hnew).
Defined.

(** X21. On a board that [Minesweeper.__init__] returned, [nearby_mines] is
    the number of cells of [self.mines] within one row and one column of the
    cell, the cell excluded. *)
Theorem nearby_mines_counts_mines (draws : list Cell) (h w wanted : Z) (G : Game)
    (cell : Cell) :
  in_range h w draws →
  new_game draws h w wanted = Some G →
  Minesweeper.nearby_mines (game G) cell
  = Z.of_nat (size (neighbours cell ∩ game_mines G)).
Proof.
  intros Hdraws Hnew.
  destruct (place_mines_laid_out h w wanted draws Hdraws _ _ G
              (laid_out_empty h w) Hnew)
    as ((Hh & Hw & _ & Hsub & Hagree) & _ & _).
  destruct (nearby_mines_count (game G) cell) as [-> _]. do 2 f_equal.
  apply set_eq. intros [i j].
  rewrite elem_of_filter, elem_of_intersection, in_bounds_spec. simpl.
  rewrite Hh, Hw. split.
  - intros [[[Hi Hj] Hb] Hn]. split; [done|]. by apply Hagree.
  - intros [Hn Hm]. split; [|done].
    pose proof (Hsub _ Hm) as Hgrid. apply calculate_all_moves_grid in Hgrid.
    simpl in Hgrid. split; [done|].
    destruct Hgrid as [Hi Hj]. by apply (Hagree i j Hi Hj).
Qed.

(** Around the corner opposite to the mine of the 2×2 board. *)
Lemma nearby_mines_counts_mines_witness :
  in_range 2 2 [(1, 1)]
  ∧ new_game [(1, 1)] 2 2 1 = Some (BuildGame board_2x2 {[(1, 1)]} ∅)
  ∧ Minesweeper.nearby_mines (game (BuildGame board_2x2 {[(1, 1)]} ∅)) (0, 0)
    = Z.of_nat (size (neighbours (0, 0)
                      ∩ game_mines (BuildGame board_2x2 {[(1, 1)]} ∅))).
Proof.
  assert (in_range 2 2 [(1, 1)]) as Hdraws.
  { apply Forall_singleton. simpl. lia. }
  assert (new_game [(1, 1)] 2 2 1 = Some (BuildGame board_2x2 {[(1, 1)]} ∅)) as Hnew
    by (vm_compute; reflexivity).
  split; [exact Hdraws|]. split; [exact Hnew|].
  exact (nearby_mines_counts_mines [(1, 1)] 2 2 1 _ (0, 0) Hdraws Hnew).
Defined.

(** X22. [Minesweeper.__init__] never returns when asked for a negative
    number of mines or for more mines than the board has cells: whatever the
    draws, the loop is still running when they are used up. *)
Theorem new_game_impossible (draws : list Cell) (h w wanted : Z) :
  wanted < 0 ∨ Z.of_nat (Z.to_nat h * Z.to_nat w) < wanted →
  in_range h w draws →
  new_game draws h w wanted = None.
Proof.
  intros Hwanted Hdraws.
  by apply (place_mines_never h w wanted draws Hwanted Hdraws), laid_out_empty.
Qed.

(** Five mines on a 2×2 board. *)
Lemma new_game_impossible_witness :
  (5 < 0 ∨ Z.of_nat (Z.to_nat 2 * Z.to_nat 2) < 5)
  ∧ in_range 2 2 [(0, 0); (0, 1); (1, 0); (1, 1); (0, 0)]
  ∧ new_game [(0, 0); (0, 1); (1, 0); (1, 1); (0, 0)] 2 2 5 = None.
Proof.
  assert (5 < 0 ∨ Z.of_nat (Z.to_nat 2 * Z.to_nat 2) < 5) as Hwanted
    by (right; reflexivity).
  assert (in_range 2 2 [(0, 0); (0, 1); (1, 0); (1, 1); (0, 0)]) as Hdraws.
  { repeat (apply Forall_cons; split; [simpl; lia|]). apply Forall_nil_2. }
  split; [exact Hwanted|]. split; [exact Hdraws|].
  exact (new_game_impossible _ 2 2 5 Hwanted Hdraws).
Defined.

End construction.
